(** * SomGraph: the topology graph of src/som.h

    A shallow embedding of class [SomGraph] (nodes carrying an error,
    undirected ageing edges) and the properties of its operations.

    Conventions of the embedding.
    - [unsigned] and [int] are 32 bits wide; values are kept in [Z] and the
      conversions between them are written out ([to_unsigned], [to_int]).
    - [float] is IEEE binary32, modelled with the Standard Library's
      [spec_float] at precision 24 and maximal exponent 128.
    - [std::unordered_map<unsigned, Node>] is a list of (key, node) pairs
      in the order the map's iterator visits them.  The C++ standard leaves
      that order open, and an insertion may put the new key anywhere and
      move the others.  The list has to put a new key somewhere and puts
      it last; this place is the list's, not the code's, and what is
      stated of a function that inserts ([add_node], [get_node_error],
      [set_node_error]) is stated up to the order of the map.
    - [std::vector<Edge>] is a list.  The loops over [_edges] index it with
      an [unsigned] counter; the vector is taken to hold fewer than 2^32
      edges, so that this counter is a plain position.
    - The mutex only serialises calls; a call is a function from the state
      before to an outcome and the state after.  A [throw] keeps the state
      reached when it is raised. *)

From Stdlib Require Import String ZArith List Bool Lia FinFun Permutation SpecFloat.
Import ListNotations.
Open Scope Z_scope.

(** ** Machine integers *)

Definition unsigned := Z.
Definition int := Z.

Definition UINT_MOD : Z := 2 ^ 32.

(** Conversion of an integer value to [unsigned]: reduction modulo 2^32. *)
Definition to_unsigned (z : Z) : unsigned := z mod UINT_MOD.

(** Conversion of an [unsigned] value to [int] (two's complement). *)
Definition to_int (u : unsigned) : int :=
  if u <? 2 ^ 31 then u else u - UINT_MOD.

(** ** Single precision floats *)

Module Float32.

Definition prec : Z := 24.
Definition emax : Z := 128.

Definition float := spec_float.

(** The float nearest to an integer literal. *)
Definition of_Z (z : Z) : float := binary_normalize prec emax z 0 false.

Definition zero : float := S754_zero false.
Definition one : float := of_Z 1.

Definition add (x y : float) : float := SFadd prec emax x y.

Definition ltb (x y : float) : bool := SFltb x y.
Definition leb (x y : float) : bool := SFleb x y.
Definition gtb (x y : float) : bool := SFltb y x.

End Float32.

Definition float : Type := Float32.float.

(** ** Data *)

(** [struct Node { float error = 0.; }] *)
Record Node := { error : float }.

Definition default_Node : Node := {| error := Float32.zero |}.

(** [class Edge { float age = 0.; unsigned n1, n2; }] *)
Record Edge := { age : float; n1 : unsigned; n2 : unsigned }.

(** [Edge(node1, node2)]: the constructor leaves [age] at its default. *)
Definition new_Edge (node1 node2 : unsigned) : Edge :=
  {| age := Float32.zero; n1 := node1; n2 := node2 |}.

Record SomGraph := {
  _nodes : list (unsigned * Node);
  _edges : list Edge
}.

Definition empty_graph : SomGraph := {| _nodes := []; _edges := [] |}.

(** ** Outcomes of a call *)

Inductive exn := runtime_error (what : string).

(** A call returns, throws, or ([Hang]) never comes back. *)
Inductive result (A : Type) :=
| Ret (a : A)
| Throw (e : exn)
| Hang.
Arguments Ret {A} a.
Arguments Throw {A} e.
Arguments Hang {A}.

Definition M (A : Type) : Type := SomGraph -> result A * SomGraph.

Definition ret {A} (a : A) : M A := fun g => (Ret a, g).
Definition throw {A} (what : string) : M A :=
  fun g => (Throw (runtime_error what), g).
Definition bind {A B} (m : M A) (k : A -> M B) : M B :=
  fun g =>
    match m g with
    | (Ret a, g') => k a g'
    | (Throw e, g') => (Throw e, g')
    | (Hang, g') => (Hang, g')
    end.

Declare Scope som_scope.
Delimit Scope som_scope with som.
Notation "x <- m ;; k" := (bind m (fun x => k))
  (at level 61, m at next level, right associativity) : som_scope.
Notation "m ;; k" := (bind m (fun _ => k))
  (at level 61, right associativity) : som_scope.
Open Scope som_scope.

(** The error classes of the specification, by the message thrown. *)
Inductive error_class := NotFound | InvalidArgument | ResourceExhausted | Other.

Definition classify (e : exn) : error_class :=
  match e with
  | runtime_error what =>
      if String.eqb what "node missing" then NotFound
      else if String.eqb what "edge not found" then NotFound
      else if String.eqb what "cannot add edge to same node" then InvalidArgument
      else if String.eqb what "failed to add node" then ResourceExhausted
      else Other
  end.

(** ** The node map *)

(** [_nodes.find(k) != _nodes.end()] *)
Definition nodes_mem (k : unsigned) (m : list (unsigned * Node)) : bool :=
  existsb (fun kv => fst kv =? k) m.

(** [_nodes.erase(k)] *)
Definition nodes_erase (k : unsigned) (m : list (unsigned * Node))
  : list (unsigned * Node) :=
  filter (fun kv => negb (fst kv =? k)) m.

(** [_nodes.emplace(k, n)]: no effect when the key is present.  Where
    the iterator of the code finds a new key is not specified; the list
    takes it last. *)
Definition nodes_emplace (k : unsigned) (n : Node) (m : list (unsigned * Node))
  : list (unsigned * Node) :=
  if nodes_mem k m then m else m ++ [(k, n)].

(** Reading through [_nodes[k]], once the key is known to be present. *)
Fixpoint nodes_get (k : unsigned) (m : list (unsigned * Node)) : Node :=
  match m with
  | [] => default_Node
  | (k', n) :: m' => if k' =? k then n else nodes_get k m'
  end.

(** Writing through [_nodes[k]], once the key is known to be present. *)
Fixpoint nodes_set (k : unsigned) (n : Node) (m : list (unsigned * Node))
  : list (unsigned * Node) :=
  match m with
  | [] => []
  | (k', n') :: m' =>
      if k' =? k then (k', n) :: m' else (k', n') :: nodes_set k n m'
  end.

(** [_nodes[k]]: a missing key is first inserted with a default node (as
    by [nodes_emplace], at a place that the code leaves open). *)
Definition nodes_index (k : unsigned) (m : list (unsigned * Node))
  : list (unsigned * Node) :=
  nodes_emplace k default_Node m.

Definition keys (g : SomGraph) : list unsigned := map fst (_nodes g).

(** [_nodes.size()] and [_edges.size()], as integers. *)
Definition nodes_size (g : SomGraph) : Z := Z.of_nat (length (_nodes g)).
Definition edges_size (g : SomGraph) : Z := Z.of_nat (length (_edges g)).

(** A map holds a key once: the invariant of the list that stands for
    [_nodes]. *)
Definition nodes_wf (g : SomGraph) : Prop := NoDup (keys g).

Definition live (x : unsigned) (g : SomGraph) : Prop :=
  nodes_mem x (_nodes g) = true.

(** ** The edge vector *)

(** [_edges.erase(_edges.begin() + i)] *)
Fixpoint erase_at {A} (i : nat) (l : list A) : list A :=
  match i, l with
  | _, [] => []
  | O, _ :: l' => l'
  | S i', x :: l' => x :: erase_at i' l'
  end.

(** The test shared by [add_edge], [remove_edge] and the age accessors:
    [e.n1 == node1 && e.n2 == node2 || e.n1 == node2 && e.n2 == node1]. *)
Definition connects (node1 node2 : unsigned) (e : Edge) : bool :=
  (n1 e =? node1) && (n2 e =? node2) || (n1 e =? node2) && (n2 e =? node1).

(** [e.n1 == node || e.n2 == node] *)
Definition incident (node : unsigned) (e : Edge) : bool :=
  (n1 e =? node) || (n2 e =? node).

(** The loop of [_remove_node] and of [purge_old_edges]:
<<
    for (unsigned i = 0; i < _edges.size(); i++)
        if (p(_edges[i])) _edges.erase(_edges.begin()+i);
>>
    The counter is incremented after an erasure as after any other
    iteration.  Every iteration consumes one unit of [fuel]; the vector
    never grows, so its initial length is enough (see
    [erase_if_skip]). *)
Fixpoint erase_loop (p : Edge -> bool) (fuel : nat) (i : nat)
  (edges : list Edge) : list Edge :=
  match fuel with
  | O => edges
  | S fuel' =>
      match nth_error edges i with
      | None => edges
      | Some e =>
          if p e then erase_loop p fuel' (S i) (erase_at i edges)
          else erase_loop p fuel' (S i) edges
      end
  end.

Definition erase_if (p : Edge -> bool) (edges : list Edge) : list Edge :=
  erase_loop p (length edges) 0%nat edges.

(** Position of the first edge between [node1] and [node2], for the loops
    that erase or update the edge they find. *)
Fixpoint find_edge (node1 node2 : unsigned) (edges : list Edge) : option nat :=
  match edges with
  | [] => None
  | e :: edges' =>
      if connects node1 node2 e then Some 0%nat
      else option_map S (find_edge node1 node2 edges')
  end.

(** ** Operations *)

Definition set_nodes (ns : list (unsigned * Node)) (g : SomGraph) : SomGraph :=
  {| _nodes := ns; _edges := _edges g |}.

Definition set_edges (es : list Edge) (g : SomGraph) : SomGraph :=
  {| _nodes := _nodes g; _edges := es |}.

(** [void _remove_node(unsigned node)] *)
Definition _remove_node (node : unsigned) : M unit := fun g =>
  if negb (nodes_mem node (_nodes g)) then throw "node missing" g
  else
    let g1 := set_edges (erase_if (incident node) (_edges g)) g in
    (Ret tt, set_nodes (nodes_erase node (_nodes g1)) g1).

(** The loop of [add_node]:
<<
    for (unsigned i = 0; i < _nodes.size() + 1; i++)
        if (_nodes.find(i) == _nodes.end()) { _nodes.emplace(i, Node{}); return i; }
    throw std::runtime_error("failed to add node");
>>
    The bound is computed in [size_t] and is not reduced; the counter is
    [unsigned] and wraps.  [fuel] bounds the number of iterations. *)
Fixpoint add_node_loop (fuel : nat) (i : unsigned) : M unsigned := fun g =>
  match fuel with
  | O => (Hang, g)
  | S fuel' =>
      if i <? nodes_size g + 1 then
        if negb (nodes_mem i (_nodes g)) then
          (Ret i, set_nodes (nodes_emplace i default_Node (_nodes g)) g)
        else add_node_loop fuel' (to_unsigned (i + 1)) g
      else throw "failed to add node" g
  end.

(** [unsigned add_node()].  When the counter does not wrap the loop makes
    at most [_nodes.size() + 1] iterations; when it wraps, that many
    iterations have tried every [unsigned] value and the loop goes on
    for ever. *)
Definition add_node : M unsigned := fun g =>
  add_node_loop (S (length (_nodes g))) 0 g.

(** [void add_edge(unsigned node1, unsigned node2)] *)
Definition add_edge (node1 node2 : unsigned) : M unit := fun g =>
  if node1 =? node2 then throw "cannot add edge to same node" g
  else if negb (nodes_mem node1 (_nodes g)) || negb (nodes_mem node2 (_nodes g))
  then throw "node missing" g
  else if existsb (connects node1 node2) (_edges g) then (Ret tt, g)
  else (Ret tt, set_edges (_edges g ++ [new_Edge node1 node2]) g).

(** [void remove_node(unsigned node)] *)
Definition remove_node (node : unsigned) : M unit := _remove_node node.

(** [void remove_edge(unsigned node1, unsigned node2)] *)
Definition remove_edge (node1 node2 : unsigned) : M unit := fun g =>
  match find_edge node1 node2 (_edges g) with
  | Some i => (Ret tt, set_edges (erase_at i (_edges g)) g)
  | None => throw "edge not found" g
  end.

(** [std::vector<unsigned> get_neighbours(unsigned node)] *)
Fixpoint neighbours_of (node : unsigned) (edges : list Edge) : list unsigned :=
  match edges with
  | [] => []
  | e :: edges' =>
      (if n1 e =? node then [n2 e] else []) ++
      (if n2 e =? node then [n1 e] else []) ++
      neighbours_of node edges'
  end.

Definition get_neighbours (node : unsigned) : M (list unsigned) := fun g =>
  (Ret (neighbours_of node (_edges g)), g).

(** [void purge_old_edges(float max_age)] *)
Definition purge_old_edges (max_age : float) : M unit := fun g =>
  (Ret tt, set_edges (erase_if (fun e => Float32.gtb (age e) max_age) (_edges g)) g).

(** First loop of [purge_orphans]: the nodes no edge touches, in the
    order of the map's iterator. *)
Definition orphans_of (g : SomGraph) : list unsigned :=
  map fst (filter (fun kv => negb (existsb (incident (fst kv)) (_edges g)))
                  (_nodes g)).

(** Second loop of [purge_orphans]. *)
Fixpoint remove_all (orphans : list unsigned) : M unit :=
  match orphans with
  | [] => ret tt
  | o :: orphans' => _remove_node o ;; remove_all orphans'
  end.

(** [std::vector<unsigned> purge_orphans()] *)
Definition purge_orphans : M (list unsigned) := fun g =>
  let orphans := orphans_of g in
  (remove_all orphans ;; ret orphans) g.

(** [float get_edge_age(unsigned node1, unsigned node2)] *)
Definition get_edge_age (node1 node2 : unsigned) : M float := fun g =>
  match find (connects node1 node2) (_edges g) with
  | Some e => (Ret (age e), g)
  | None => throw "edge not found" g
  end.

Fixpoint update_at {A} (f : A -> A) (i : nat) (l : list A) : list A :=
  match i, l with
  | _, [] => []
  | O, x :: l' => f x :: l'
  | S i', x :: l' => x :: update_at f i' l'
  end.

Definition with_age (a : float) (e : Edge) : Edge :=
  {| age := a; n1 := n1 e; n2 := n2 e |}.

(** [void set_edge_age(unsigned node1, unsigned node2, float age)] *)
Definition set_edge_age (node1 node2 : unsigned) (a : float) : M unit := fun g =>
  match find_edge node1 node2 (_edges g) with
  | Some i => (Ret tt, set_edges (update_at (with_age a) i (_edges g)) g)
  | None => throw "edge not found" g
  end.

(** [float get_node_error(unsigned node)]: [return _nodes[node].error;] *)
Definition get_node_error (node : unsigned) : M float := fun g =>
  let ns := nodes_index node (_nodes g) in
  (Ret (error (nodes_get node ns)), set_nodes ns g).

(** [void set_node_error(unsigned node, float error)]:
    [_nodes[node].error = error;] *)
Definition set_node_error (node : unsigned) (err : float) : M unit := fun g =>
  let ns := nodes_index node (_nodes g) in
  (Ret tt, set_nodes (nodes_set node {| error := err |} ns) g).

(** [void increment_age()] *)
Definition increment_age : M unit := fun g =>
  (Ret tt,
   set_edges (map (fun e => with_age (Float32.add (age e) Float32.one) e)
                  (_edges g)) g).

(** [unsigned get_node_count() const]: [size_t] converted to [unsigned]. *)
Definition get_node_count : M unsigned := fun g =>
  (Ret (to_unsigned (nodes_size g)), g).

(** [unsigned get_edge_count() const] *)
Definition get_edge_count : M unsigned := fun g =>
  (Ret (to_unsigned (edges_size g)), g).

(** [void reset_errors()] *)
Definition reset_errors : M unit := fun g =>
  (Ret tt,
   set_nodes (map (fun kv => (fst kv, {| error := Float32.zero |})) (_nodes g)) g).

(** One iteration of the loop of [find_wpu]; the accumulator holds
    [int wpu] and [XFLOAT min_e].  [XFLOAT] is [float] or [double]
    according to the build; [min_e] only ever holds 0 or the value of a
    [float], and the conversion of a [float] to [double] is exact and
    keeps the order, so [min_e] is kept as a [float]. *)
Definition find_wpu_step (acc : int * float) (n : unsigned * Node)
  : int * float :=
  let '(wpu, min_e) := acc in
  let e := error (snd n) in
  if (Float32.leb (Float32.of_Z 0) e && Float32.ltb e min_e) || (wpu =? -1)
  then (to_int (fst n), e)
  else acc.

(** [unsigned find_wpu()] *)
Definition find_wpu : M unsigned := fun g =>
  let '(wpu, _) := fold_left find_wpu_step (_nodes g) (-1, Float32.of_Z 0) in
  (Ret (to_unsigned wpu), g).

(** What the loop computes, by recursion on the vector: after an erasure
    the element that slides into the freed position is stepped over
    without being tested. *)
Fixpoint skip_erase (p : Edge -> bool) (l : list Edge) : list Edge :=
  match l with
  | [] => []
  | e :: l' =>
      if p e then
        match l' with
        | [] => []
        | e' :: l'' => e' :: skip_erase p l''
        end
      else e :: skip_erase p l'
  end.

(** Is there an edge between [node1] and [node2]? *)
Definition has_edge (node1 node2 : unsigned) (g : SomGraph) : bool :=
  existsb (connects node1 node2) (_edges g).

(** The edge invariant of the data model: an edge joins two distinct
    live nodes. *)
Definition edge_ok (g : SomGraph) (e : Edge) : bool :=
  negb (n1 e =? n2 e) && nodes_mem (n1 e) (_nodes g) && nodes_mem (n2 e) (_nodes g).

Definition edges_ok (g : SomGraph) : bool := forallb (edge_ok g) (_edges g).

(** ** Scenarios *)

(** [run m g]: the call sequence [m] started in state [g]. *)
Definition run {A} (m : M A) (g : SomGraph) : result A * SomGraph := m g.

(** Three nodes are created and the first and the last are joined to the
    second; the ids are returned.  From the empty graph they are 0, 1, 2
    and the edges are (0,1) and (1,2). *)
Definition build_path : M (unsigned * unsigned * unsigned) :=
  a <- add_node ;; b <- add_node ;; c <- add_node ;;
  add_edge a b ;; add_edge b c ;;
  ret (a, b, c).

Definition tick3 : M unit := increment_age ;; increment_age ;; increment_age.

(** The end-to-end scenario of the specification, with what it observes:
    the ids created, the edge count after building, the two ages after
    three ticks, the edge count after [purge_old_edges(2)], the orphans
    returned and the node count at the end. *)
Definition end_to_end
  : M (unsigned * unsigned * unsigned
       * unsigned * float * float * unsigned * list unsigned * unsigned) :=
  ids <- build_path ;;
  c <- get_edge_count ;;
  tick3 ;;
  a01 <- get_edge_age 0 1 ;;
  a12 <- get_edge_age 1 2 ;;
  purge_old_edges (Float32.of_Z 2) ;;
  c' <- get_edge_count ;;
  orphans <- purge_orphans ;;
  nc <- get_node_count ;;
  ret (ids, c, a01, a12, c', orphans, nc).

(** Nodes 5, 6, 7 with errors 3.0, -1.0, 1.0, visited in this order. *)
Definition winner_nodes : list (unsigned * Node) :=
  [ (5, {| error := Float32.of_Z 3 |});
    (6, {| error := Float32.of_Z (-1) |});
    (7, {| error := Float32.of_Z 1 |}) ].

(** ** Calls, and predicates on states *)

(** The public member functions, as calls with their arguments. *)
Inductive call :=
| AddNode
| AddEdge (node1 node2 : unsigned)
| RemoveNode (node : unsigned)
| RemoveEdge (node1 node2 : unsigned)
| GetNeighbours (node : unsigned)
| PurgeOldEdges (max_age : float)
| PurgeOrphans
| GetEdgeAge (node1 node2 : unsigned)
| SetEdgeAge (node1 node2 : unsigned) (a : float)
| GetNodeError (node : unsigned)
| SetNodeError (node : unsigned) (err : float)
| IncrementAge
| GetNodeCount
| GetEdgeCount
| ResetErrors
| FindWpu.

(** The state a call leaves behind, whether it returns or throws. *)
Definition exec (c : call) (g : SomGraph) : SomGraph :=
  match c with
  | AddNode => snd (add_node g)
  | AddEdge node1 node2 => snd (add_edge node1 node2 g)
  | RemoveNode node => snd (remove_node node g)
  | RemoveEdge node1 node2 => snd (remove_edge node1 node2 g)
  | GetNeighbours node => snd (get_neighbours node g)
  | PurgeOldEdges max_age => snd (purge_old_edges max_age g)
  | PurgeOrphans => snd (purge_orphans g)
  | GetEdgeAge node1 node2 => snd (get_edge_age node1 node2 g)
  | SetEdgeAge node1 node2 a => snd (set_edge_age node1 node2 a g)
  | GetNodeError node => snd (get_node_error node g)
  | SetNodeError node err => snd (set_node_error node err g)
  | IncrementAge => snd (increment_age g)
  | GetNodeCount => snd (get_node_count g)
  | GetEdgeCount => snd (get_edge_count g)
  | ResetErrors => snd (reset_errors g)
  | FindWpu => snd (find_wpu g)
  end.

(** The state after a sequence of calls. *)
Definition exec_all (cs : list call) (g : SomGraph) : SomGraph :=
  fold_left (fun g' c => exec c g') cs g.

(** No edge joins a node to itself and no two edges join the same two
    nodes. *)
Fixpoint simple_edges (es : list Edge) : bool :=
  match es with
  | [] => true
  | e :: es' =>
      negb (n1 e =? n2 e)
      && negb (existsb (connects (n1 e) (n2 e)) es')
      && simple_edges es'
  end.

(** No two neighbouring elements of the vector both pass the test [p]. *)
Fixpoint no_adjacent (p : Edge -> bool) (es : list Edge) : bool :=
  match es with
  | [] => true
  | e :: es' =>
      negb (p e && match es' with [] => false | e' :: _ => p e' end)
      && no_adjacent p es'
  end.

(** [subseq l1 l2]: [l1] is [l2] with some elements taken out. *)
Inductive subseq {A : Type} : list A -> list A -> Prop :=
| subseq_nil : subseq [] []
| subseq_drop x l1 l2 : subseq l1 l2 -> subseq l1 (x :: l2)
| subseq_keep x l1 l2 : subseq l1 l2 -> subseq (x :: l1) (x :: l2).

(** The two endpoints of an edge. *)
Definition ends (e : Edge) : unsigned * unsigned := (n1 e, n2 e).

(** The map holds every key once, and the edges are simple. *)
Definition wf_simple (g : SomGraph) : Prop :=
  nodes_wf g /\ simple_edges (_edges g) = true.

(** Every node id lies in [0, bound). *)
Definition ids_below (bound : Z) (g : SomGraph) : bool :=
  forallb (fun kv => (0 <=? fst kv) && (fst kv <? bound)) (_nodes g).

(** The error stored for a live node. *)
Definition error_of (x : unsigned) (g : SomGraph) : float :=
  error (nodes_get x (_nodes g)).

(** The age of the edge between two nodes, if there is one. *)
Definition age_of (node1 node2 : unsigned) (g : SomGraph) : option float :=
  option_map age (find (connects node1 node2) (_edges g)).

(** A float that is not below zero (and so is not a NaN): the test
    [0 <= e] of [find_wpu]. *)
Definition nonneg (e : float) : bool := Float32.leb (Float32.of_Z 0) e.

(** [k] calls of [purge_old_edges] with the same bound. *)
Fixpoint purges (k : nat) (max_age : float) : M unit :=
  match k with
  | O => ret tt
  | S k' => purge_old_edges max_age ;; purges k' max_age
  end.

(** The number of edges older than [max_age]. *)
Definition old_count (max_age : float) (g : SomGraph) : nat :=
  length (filter (fun e => Float32.gtb (age e) max_age) (_edges g)).

(** [k] calls of [increment_age]. *)
Fixpoint ticks (k : nat) : M unit :=
  match k with
  | O => ret tt
  | S k' => increment_age ;; ticks k'
  end.

(** [k] calls of [add_node], with the ids they return. *)
Fixpoint add_nodes (k : nat) : M (list unsigned) :=
  match k with
  | O => ret []
  | S k' => i <- add_node ;; l <- add_nodes k' ;; ret (i :: l)
  end.

(** Opens the float comparisons up to [SFcompare], for a proof by cases
    on the two floats. *)
Ltac float_cases :=
  unfold nonneg, Float32.leb, Float32.ltb, Float32.gtb, SFleb, SFltb;
  change (Float32.of_Z 0) with (S754_zero false);
  change Float32.zero with (S754_zero false).

(** * Properties *)

(** ** Machine integers *)

Lemma to_unsigned_small z : 0 <= z < UINT_MOD -> to_unsigned z = z.
Proof. intros H. unfold to_unsigned. now apply Z.mod_small. Qed.

Lemma to_unsigned_range z : 0 <= to_unsigned z < UINT_MOD.
Proof. unfold to_unsigned. apply Z.mod_pos_bound. reflexivity. Qed.

(** ** The node map *)

Lemma nodes_mem_In k m : nodes_mem k m = true <-> In k (map fst m).
Proof.
  unfold nodes_mem. rewrite existsb_exists, in_map_iff. split.
  - intros [kv [Hin Hk]]. exists kv. split; [now apply Z.eqb_eq|assumption].
  - intros [kv [Hk Hin]]. exists kv. split; [assumption|now apply Z.eqb_eq].
Qed.

Lemma nodes_mem_app k m m' :
  nodes_mem k (m ++ m') = nodes_mem k m || nodes_mem k m'.
Proof. unfold nodes_mem. apply existsb_app. Qed.

Lemma nodes_erase_absent k m : nodes_mem k m = false -> nodes_erase k m = m.
Proof.
  induction m as [|[k' n] m IH]; simpl; intros H; [reflexivity|].
  apply orb_false_iff in H as [Hk Hm]. rewrite Hk. simpl. now rewrite IH.
Qed.

Lemma nodes_mem_erase k m : nodes_mem k (nodes_erase k m) = false.
Proof.
  induction m as [|[k' n] m IH]; simpl; [reflexivity|].
  destruct (k' =? k) eqn:E; simpl; [assumption|]. now rewrite E.
Qed.

Lemma nodes_erase_app k m m' :
  nodes_erase k (m ++ m') = nodes_erase k m ++ nodes_erase k m'.
Proof. unfold nodes_erase. apply filter_app. Qed.

Lemma nodes_erase_emplace k n m :
  nodes_mem k m = false -> nodes_erase k (nodes_emplace k n m) = m.
Proof.
  intros H. unfold nodes_emplace. rewrite H, nodes_erase_app.
  rewrite nodes_erase_absent by assumption.
  simpl. rewrite Z.eqb_refl. simpl. apply app_nil_r.
Qed.

Lemma nodes_mem_emplace k n m : nodes_mem k (nodes_emplace k n m) = true.
Proof.
  unfold nodes_emplace. destruct (nodes_mem k m) eqn:E; [assumption|].
  rewrite nodes_mem_app, E. simpl. now rewrite Z.eqb_refl.
Qed.

(** Pigeonhole: when every id below [i] is a key, the map has at least
    [i] entries. *)
Lemma ids_below_bound i (m : list (unsigned * Node)) :
  0 <= i ->
  (forall j, 0 <= j < i -> nodes_mem j m = true) ->
  i <= Z.of_nat (length m).
Proof.
  intros Hi Hall.
  pose (l := map Z.of_nat (seq 0 (Z.to_nat i))).
  assert (Hnd : NoDup l).
  { unfold l. apply Injective_map_NoDup; [|apply seq_NoDup].
    intros a b. apply Nat2Z.inj. }
  assert (Hincl : incl l (map fst m)).
  { intros x Hx. unfold l in Hx. apply in_map_iff in Hx as [a [<- Ha]].
    apply in_seq in Ha. apply nodes_mem_In, Hall. lia. }
  pose proof (NoDup_incl_length Hnd Hincl) as Hlen.
  unfold l in Hlen. rewrite !length_map, length_seq in Hlen. lia.
Qed.

(** ** Node allocation *)

Section AddNode.

Variable g : SomGraph.

(** The loop never reaches its [throw]: the counter passes [_nodes.size()]
    only when the ids from 0 to that size are all keys, which so many
    entries cannot hold. *)
Lemma add_node_loop_no_throw fuel : forall i,
  0 <= i < UINT_MOD ->
  (forall j, 0 <= j < i -> nodes_mem j (_nodes g) = true) ->
  forall e, fst (add_node_loop fuel i g) <> Throw e.
Proof.
  induction fuel as [|fuel IH]; intros i Hi Hall e; simpl; [discriminate|].
  destruct (i <? nodes_size g + 1) eqn:Hlt.
  - destruct (nodes_mem i (_nodes g)) eqn:Hmem; simpl; [|discriminate].
    apply IH; [apply to_unsigned_range|].
    intros j Hj. destruct (Z.eq_dec (i + 1) UINT_MOD) as [Hw|Hw].
    + rewrite Hw in Hj. unfold to_unsigned in Hj.
      rewrite Z.mod_same in Hj by discriminate. lia.
    + rewrite to_unsigned_small in Hj by lia.
      destruct (Z.eq_dec j i) as [->|]; [assumption|apply Hall; lia].
  - apply Z.ltb_ge in Hlt.
    pose proof (ids_below_bound i (_nodes g) (proj1 Hi) Hall) as Hb.
    unfold nodes_size in Hlt. lia.
Qed.

(** With fewer than 2^32 entries the counter does not wrap, and the
    loop returns the first id that is not a key. *)
Lemma add_node_loop_returns fuel : forall i,
  0 <= i ->
  (forall j, 0 <= j < i -> nodes_mem j (_nodes g) = true) ->
  nodes_size g < UINT_MOD ->
  nodes_size g + 1 - i <= Z.of_nat fuel ->
  exists r,
    add_node_loop fuel i g
    = (Ret r, set_nodes (nodes_emplace r default_Node (_nodes g)) g) /\
    i <= r <= nodes_size g /\
    nodes_mem r (_nodes g) = false /\
    (forall j, 0 <= j < r -> nodes_mem j (_nodes g) = true).
Proof.
  induction fuel as [|fuel IH]; intros i Hi Hall Hn Hfuel;
    pose proof (ids_below_bound i (_nodes g) Hi Hall) as Hb;
    fold (nodes_size g) in Hb.
  - simpl in Hfuel. lia.
  - simpl.
    replace (i <? nodes_size g + 1) with true by (symmetry; apply Z.ltb_lt; lia).
    destruct (nodes_mem i (_nodes g)) eqn:Hmem; simpl.
    + assert (Hall' : forall j, 0 <= j < i + 1 -> nodes_mem j (_nodes g) = true).
      { intros j Hj. destruct (Z.eq_dec j i) as [->|]; [assumption|apply Hall; lia]. }
      pose proof (ids_below_bound (i + 1) (_nodes g) ltac:(lia) Hall') as Hb'.
      fold (nodes_size g) in Hb'.
      rewrite to_unsigned_small by lia.
      destruct (IH (i + 1)) as [r [Hr [Hrange [Hfree Hsmall]]]]; try lia; try assumption.
      exists r. repeat split; try assumption; lia.
    + exists i. repeat split; try assumption; lia.
Qed.

Lemma add_node_returns :
  nodes_size g < UINT_MOD ->
  exists i,
    add_node g = (Ret i, set_nodes (nodes_emplace i default_Node (_nodes g)) g) /\
    0 <= i <= nodes_size g /\
    nodes_mem i (_nodes g) = false /\
    (forall j, 0 <= j < i -> nodes_mem j (_nodes g) = true).
Proof.
  intros Hn. unfold add_node. apply add_node_loop_returns; try lia.
  unfold nodes_size. lia.
Qed.

(** Pigeonhole on the ids from 0 to [_nodes.size()]. *)
Lemma free_id_exists :
  exists i, 0 <= i <= nodes_size g /\ nodes_mem i (_nodes g) = false.
Proof.
  unfold nodes_size.
  destruct (find (fun j => negb (nodes_mem j (_nodes g)))
              (map Z.of_nat (seq 0 (S (length (_nodes g)))))) as [i|] eqn:E.
  - apply find_some in E as [Hin Hi].
    apply in_map_iff in Hin as [a [<- Ha]]. apply in_seq in Ha.
    exists (Z.of_nat a). split; [lia|now apply negb_true_iff].
  - exfalso.
    assert (H : Z.of_nat (length (_nodes g)) + 1 <= Z.of_nat (length (_nodes g)));
      [|lia].
    apply ids_below_bound; [lia|].
    intros j Hj.
    apply negb_false_iff. apply (find_none _ _ E).
    apply in_map_iff. exists (Z.to_nat j). split; [lia|].
    apply in_seq. lia.
Qed.

End AddNode.

(** The id [add_node] returns depends on the node map only. *)
Lemma add_node_loop_same_nodes fuel : forall i g g',
  _nodes g = _nodes g' ->
  fst (add_node_loop fuel i g) = fst (add_node_loop fuel i g').
Proof.
  induction fuel as [|fuel IH]; intros i g g' E; simpl; [reflexivity|].
  unfold nodes_size. rewrite <- E.
  destruct (i <? _); [|reflexivity].
  destruct (nodes_mem i (_nodes g)); simpl; [now apply IH|reflexivity].
Qed.

Lemma add_node_same_nodes g g' :
  _nodes g = _nodes g' -> fst (add_node g) = fst (add_node g').
Proof.
  intros E. unfold add_node. rewrite <- E. now apply add_node_loop_same_nodes.
Qed.

(** ** The erase loop *)

Lemma erase_at_app {A} (pre suf : list A) :
  erase_at (length pre) (pre ++ suf) = pre ++ tl suf.
Proof.
  induction pre as [|x pre IH]; simpl.
  - now destruct suf.
  - now rewrite IH.
Qed.

Section EraseLoop.

Variable p : Edge -> bool.

Lemma erase_loop_past fuel i l :
  (length l <= i)%nat -> erase_loop p fuel i l = l.
Proof.
  intros H. destruct fuel; simpl; [reflexivity|].
  apply nth_error_None in H. now rewrite H.
Qed.

Lemma erase_loop_app fuel : forall pre suf,
  (length suf <= fuel)%nat ->
  erase_loop p fuel (length pre) (pre ++ suf) = pre ++ skip_erase p suf.
Proof.
  induction fuel as [|fuel IH]; intros pre suf Hlen.
  - destruct suf; [reflexivity|simpl in Hlen; lia].
  - simpl. rewrite nth_error_app2, Nat.sub_diag by lia.
    destruct suf as [|e suf]; simpl; [reflexivity|].
    simpl in Hlen. destruct (p e).
    + rewrite erase_at_app. simpl.
      destruct suf as [|e' suf]; simpl.
      * rewrite app_nil_r. apply erase_loop_past. lia.
      * replace (pre ++ e' :: suf) with ((pre ++ [e']) ++ suf)
          by (rewrite <- app_assoc; reflexivity).
        replace (S (length pre)) with (length (pre ++ [e']))
          by (rewrite length_app; simpl; lia).
        rewrite IH by (simpl in Hlen; lia).
        rewrite <- app_assoc. reflexivity.
    + replace (pre ++ e :: suf) with ((pre ++ [e]) ++ suf)
        by (rewrite <- app_assoc; reflexivity).
      replace (S (length pre)) with (length (pre ++ [e]))
        by (rewrite length_app; simpl; lia).
      rewrite IH by lia. rewrite <- app_assoc. reflexivity.
Qed.

(** The initial length of the vector is enough fuel. *)
Lemma erase_if_skip edges : erase_if p edges = skip_erase p edges.
Proof. unfold erase_if. apply (erase_loop_app (length edges) [] edges). lia. Qed.

(** More fuel changes nothing. *)
Lemma erase_loop_fuel edges k :
  erase_loop p (length edges + k) 0 edges = erase_if p edges.
Proof.
  rewrite erase_if_skip. apply (erase_loop_app (length edges + k) [] edges). lia.
Qed.

(** An edge the test rejects is never erased. *)
Lemma skip_erase_keeps : forall k l e,
  (length l <= k)%nat -> In e l -> p e = false -> In e (skip_erase p l).
Proof.
  induction k as [|k IH]; intros l e Hlen Hin Hp.
  - destruct l; [contradiction|simpl in Hlen; lia].
  - destruct l as [|x l]; [contradiction|]. simpl in Hlen. simpl.
    destruct (p x) eqn:Hx.
    + destruct Hin as [->|Hin]; [congruence|].
      destruct l as [|y l]; [contradiction|].
      destruct Hin as [->|Hin]; [now left|].
      right. apply IH; [simpl in Hlen; lia|assumption|assumption].
    + destruct Hin as [->|Hin]; [now left|].
      right. apply IH; [lia|assumption|assumption].
Qed.

(** Nothing is added. *)
Lemma skip_erase_incl : forall k l e,
  (length l <= k)%nat -> In e (skip_erase p l) -> In e l.
Proof.
  induction k as [|k IH]; intros l e Hlen Hin.
  - destruct l; [assumption|simpl in Hlen; lia].
  - destruct l as [|x l]; [contradiction|]. simpl in Hlen, Hin.
    destruct (p x).
    + destruct l as [|y l]; [contradiction|].
      destruct Hin as [->|Hin]; [right; now left|].
      right. right. apply IH; [simpl in Hlen; lia|assumption].
    + destruct Hin as [->|Hin]; [now left|].
      right. apply IH; [lia|assumption].
Qed.

End EraseLoop.

(** ** Edges *)

Lemma connects_sym a b e : connects a b e = connects b a e.
Proof. unfold connects. apply orb_comm. Qed.

Lemma existsb_connects_sym a b es :
  existsb (connects a b) es = existsb (connects b a) es.
Proof.
  induction es as [|e es IH]; simpl; [reflexivity|].
  now rewrite IH, (connects_sym a b e).
Qed.

Lemma connects_new_Edge a b : connects a b (new_Edge a b) = true.
Proof. unfold connects. simpl. now rewrite !Z.eqb_refl. Qed.

Lemma nodes_get_last k n m :
  nodes_mem k m = false -> nodes_get k (m ++ [(k, n)]) = n.
Proof.
  induction m as [|[k' n'] m IH]; simpl; intros H.
  - now rewrite Z.eqb_refl.
  - apply orb_false_iff in H as [Hk Hm]. rewrite Hk. now apply IH.
Qed.

Lemma nodes_set_last k n n0 m :
  nodes_mem k m = false -> nodes_set k n (m ++ [(k, n0)]) = m ++ [(k, n)].
Proof.
  induction m as [|[k' n'] m IH]; simpl; intros H.
  - now rewrite Z.eqb_refl.
  - apply orb_false_iff in H as [Hk Hm]. rewrite Hk. now rewrite IH.
Qed.

(** ** Removal of a node *)

(** C1. The claim: after every operation every edge joins two distinct
    live nodes, and [remove_node(x)] removes every edge incident to [x].
    The code does not do so.  On the path 0 - 1 - 2, built by three
    [add_node] and two [add_edge] calls, the edge invariant holds;
    [remove_node(1)] erases the edge (0,1) at position 0, the edge (1,2)
    slides into position 0, and the counter moves on to 1, past it.  The
    call returns with node 1 gone and the edge (1,2) still in the vector:
    the invariant is broken and node 2 still lists 1 as a neighbour. *)
Theorem remove_node_leaves_incident_edge :
  exists g g',
    run build_path empty_graph = (Ret (0, 1, 2), g) /\
    edges_ok g = true /\
    live 1 g /\
    remove_node 1 g = (Ret tt, g') /\
    ~ live 1 g' /\
    _edges g' = [new_Edge 1 2] /\
    existsb (incident 1) (_edges g') = true /\
    edges_ok g' = false /\
    get_neighbours 2 g' = (Ret [1], g').
Proof.
  eexists. eexists.
  split; [vm_compute; reflexivity|].
  repeat split; try (vm_compute; reflexivity).
  vm_compute. discriminate.
Qed.

(** ** Age pruning *)

(** X1. The part of the contract of [purge_old_edges] that the code
    keeps: the call returns, leaves the nodes alone, erases no edge whose
    age is not above [max_age], and adds none. *)
Theorem purge_old_edges_retains max_age g :
  exists g',
    purge_old_edges max_age g = (Ret tt, g') /\
    _nodes g' = _nodes g /\
    (forall e, In e (_edges g) -> Float32.gtb (age e) max_age = false ->
               In e (_edges g')) /\
    (forall e, In e (_edges g') -> In e (_edges g)).
Proof.
  eexists. split; [reflexivity|]. simpl. rewrite erase_if_skip.
  split; [reflexivity|]. split.
  - intros e Hin Hage.
    now apply (skip_erase_keeps _ (length (_edges g))).
  - intros e. now apply (skip_erase_incl _ (length (_edges g))).
Qed.

(** C2. The claim: [purge_old_edges(max_age)] removes every edge whose age
    is above [max_age] and retains the others.  The second half holds
    (X1 above); the first does not.  After three ticks
    both edges of the path 0 - 1 - 2 have age 3; [purge_old_edges(2)]
    erases the edge (0,1) and steps over the edge (1,2), which stays in
    the vector with its age 3 > 2. *)
Theorem purge_old_edges_skips_next_edge :
  exists g g',
    run (build_path ;; tick3) empty_graph = (Ret tt, g) /\
    forallb (fun e => Float32.gtb (age e) (Float32.of_Z 2)) (_edges g) = true /\
    purge_old_edges (Float32.of_Z 2) g = (Ret tt, g') /\
    _edges g' = [with_age (Float32.of_Z 3) (new_Edge 1 2)] /\
    existsb (fun e => Float32.gtb (age e) (Float32.of_Z 2)) (_edges g') = true.
Proof.
  eexists. eexists.
  split; [vm_compute; reflexivity|].
  repeat split; vm_compute; reflexivity.
Qed.

(** C3. The end-to-end scenario, run on the code.  The claim expects the
    edge count 0 after [purge_old_edges(2)], the orphans 0, 1, 2 and the
    node count 0.  The code gives the ids 0, 1, 2, the edge count 2 and
    the ages 3 and 3 as claimed, then the edge count 1 (the edge (1,2) is
    stepped over), the single orphan 0 and the node count 2. *)
Theorem end_to_end_run :
  run end_to_end empty_graph
  = (Ret (0, 1, 2, 2, Float32.of_Z 3, Float32.of_Z 3, 1, [0], 2),
     {| _nodes := [(1, default_Node); (2, default_Node)];
        _edges := [with_age (Float32.of_Z 3) (new_Edge 1 2)] |}).
Proof. vm_compute. reflexivity. Qed.

(** ** Winner selection *)

(** C4, the claim at its input: on the nodes 5, 6, 7 with errors 3.0, -1.0
    and 1.0, inserted (here by [set_node_error]) and visited in this
    order, [find_wpu] does not return 6. *)
Lemma find_wpu_scenario_not_6 :
  map fst winner_nodes = [5; 6; 7] /\
  run (set_node_error 5 (Float32.of_Z 3) ;;
       set_node_error 6 (Float32.of_Z (-1)) ;;
       set_node_error 7 (Float32.of_Z 1)) empty_graph
  = (Ret tt, {| _nodes := winner_nodes; _edges := [] |}) /\
  fst (find_wpu {| _nodes := winner_nodes; _edges := [] |}) <> Ret 6.
Proof.
  split; [reflexivity|]. split; [reflexivity|]. vm_compute. discriminate.
Qed.

(** C4, amended: on these nodes [find_wpu] returns 7, whatever the edges,
    and changes nothing.  Node 5 is visited first and accepted with
    minimum 3.0; node 6 is passed over because its error is negative;
    node 7 replaces node 5 because 0 <= 1.0 < 3.0. *)
Theorem find_wpu_scenario edges :
  find_wpu {| _nodes := winner_nodes; _edges := edges |}
  = (Ret 7, {| _nodes := winner_nodes; _edges := edges |}).
Proof. reflexivity. Qed.

(** ** Error accessors *)

(** C5, the claim at two inputs: on the empty graph and on the path
    0 - 1 - 2, where 5 is not live, [get_node_error(5)] and
    [set_node_error(5, 3.0)] do not throw, and node 5 is live
    afterwards. *)
Lemma node_error_accessors_do_not_throw :
  ~ live 5 empty_graph /\
  fst (get_node_error 5 empty_graph) = Ret Float32.zero /\
  live 5 (snd (get_node_error 5 empty_graph)) /\
  fst (set_node_error 5 (Float32.of_Z 3) empty_graph) = Ret tt /\
  live 5 (snd (set_node_error 5 (Float32.of_Z 3) empty_graph)) /\
  ~ live 5 (snd (run build_path empty_graph)) /\
  fst (get_node_error 5 (snd (run build_path empty_graph))) = Ret Float32.zero /\
  live 5 (snd (get_node_error 5 (snd (run build_path empty_graph)))) /\
  fst (set_node_error 5 (Float32.of_Z 3) (snd (run build_path empty_graph)))
  = Ret tt /\
  live 5 (snd (set_node_error 5 (Float32.of_Z 3) (snd (run build_path empty_graph)))).
Proof.
  repeat split; try reflexivity; vm_compute; discriminate.
Qed.

(** ** Node allocation: the claims *)

(** C6. [add_node] returns the smallest non-negative integer that is not
    the id of a live node (the map holding fewer than 2^32 nodes, so that
    the [unsigned] counter does not wrap); the new id is live afterwards,
    [remove_node] of it succeeds, and the next [add_node] returns the same
    id again. *)
Theorem add_node_smallest_unused g :
  nodes_size g < UINT_MOD ->
  exists i g1 g2 g3,
    add_node g = (Ret i, g1) /\
    0 <= i /\
    ~ live i g /\
    (forall j, 0 <= j < i -> live j g) /\
    live i g1 /\
    remove_node i g1 = (Ret tt, g2) /\
    ~ live i g2 /\
    add_node g2 = (Ret i, g3).
Proof.
  intros Hn.
  destruct (add_node_returns g Hn) as [i [Hadd [Hrange [Hfree Hsmall]]]].
  set (g1 := set_nodes (nodes_emplace i default_Node (_nodes g)) g) in *.
  assert (Hlive : nodes_mem i (_nodes g1) = true) by apply nodes_mem_emplace.
  set (g2 := set_nodes (_nodes g)
               (set_edges (erase_if (incident i) (_edges g1)) g1)).
  assert (Hrem : remove_node i g1 = (Ret tt, g2)).
  { unfold remove_node, _remove_node. rewrite Hlive. simpl.
    rewrite nodes_erase_emplace by assumption. reflexivity. }
  assert (Hn2 : nodes_size g2 < UINT_MOD) by exact Hn.
  destruct (add_node_returns g2 Hn2) as [i' [Hadd' _]].
  assert (Hfst : fst (add_node g2) = fst (add_node g))
    by (apply add_node_same_nodes; reflexivity).
  rewrite Hadd, Hadd' in Hfst. simpl in Hfst. injection Hfst as ->.
  exists i, g1, g2. eexists.
  split; [exact Hadd|]. split; [lia|].
  split; [unfold live; rewrite Hfree; discriminate|].
  split; [exact Hsmall|]. split; [exact Hlive|]. split; [exact Hrem|].
  split; [unfold live; simpl; rewrite Hfree; discriminate|exact Hadd'].
Qed.

Lemma add_node_smallest_unused_witness :
  exists i g1 g2 g3,
    add_node (snd (run build_path empty_graph)) = (Ret i, g1) /\
    0 <= i /\
    ~ live i (snd (run build_path empty_graph)) /\
    (forall j, 0 <= j < i -> live j (snd (run build_path empty_graph))) /\
    live i g1 /\
    remove_node i g1 = (Ret tt, g2) /\
    ~ live i g2 /\
    add_node g2 = (Ret i, g3).
Proof.
  apply (add_node_smallest_unused (snd (run build_path empty_graph))).
  vm_compute. reflexivity.
Defined.

(** C9. [add_node] never fails.  In a graph of [n] nodes one of the ids
    [0..n] is not live; no run of [add_node] ends in its [throw]; and
    when [n] is below 2^32 the call returns an id of that range. *)
Theorem add_node_never_throws g :
  (exists i, 0 <= i <= nodes_size g /\ ~ live i g) /\
  (forall e, fst (add_node g) <> Throw e) /\
  (nodes_size g < UINT_MOD ->
   exists i, 0 <= i <= nodes_size g /\ fst (add_node g) = Ret i).
Proof.
  split; [|split].
  - destruct (free_id_exists g) as [i [Hi Hfree]].
    exists i. split; [exact Hi|]. unfold live. rewrite Hfree. discriminate.
  - intros e. unfold add_node. apply add_node_loop_no_throw.
    + split; [lia|reflexivity].
    + intros j Hj. lia.
  - intros Hn. destruct (add_node_returns g Hn) as [i [Hadd [Hrange _]]].
    exists i. split; [exact Hrange|]. now rewrite Hadd.
Qed.

Lemma add_node_never_throws_witness :
  (exists i, 0 <= i <= 3 /\ ~ live i (snd (run build_path empty_graph))) /\
  (forall e, fst (add_node (snd (run build_path empty_graph))) <> Throw e) /\
  (exists i, 0 <= i <= 3 /\ fst (add_node (snd (run build_path empty_graph))) = Ret i).
Proof.
  destruct (add_node_never_throws (snd (run build_path empty_graph)))
    as [H1 [H2 H3]].
  split; [exact H1|]. split; [exact H2|]. apply H3. vm_compute. reflexivity.
Defined.

(** ** Edge insertion: the claims *)

(** C7. A call of [add_edge] that fails leaves the graph as it was.  With
    equal endpoints it throws "cannot add edge to same node" (the class
    InvalidArgument); with distinct endpoints of which one is not live it
    throws "node missing" (the class NotFound); these are the only
    failures, and in each the state at the throw is the state at the
    call. *)
Theorem add_edge_failure_leaves_graph a b g :
  (a = b ->
   add_edge a b g = (Throw (runtime_error "cannot add edge to same node"), g)) /\
  (a <> b -> ~ live a g \/ ~ live b g ->
   add_edge a b g = (Throw (runtime_error "node missing"), g)) /\
  (forall e, fst (add_edge a b g) = Throw e ->
     snd (add_edge a b g) = g /\
     (a = b /\ classify e = InvalidArgument \/
      a <> b /\ (~ live a g \/ ~ live b g) /\ classify e = NotFound)) /\
  fst (add_edge a b g) <> Hang.
Proof.
  unfold add_edge, live.
  destruct (Z.eqb_spec a b) as [Heq|Hne].
  - split; [reflexivity|]. split; [contradiction|]. split; [|discriminate].
    intros e [= <-]. simpl. split; [reflexivity|]. left. now split.
  - split; [contradiction|].
    destruct (nodes_mem a (_nodes g)) eqn:Ha; simpl.
    + destruct (nodes_mem b (_nodes g)) eqn:Hb; simpl.
      * split; [intros _ [H|H]; exfalso; now apply H|].
        destruct (existsb (connects a b) (_edges g)); simpl;
          (split; [discriminate|discriminate]).
      * split; [reflexivity|]. split; [|discriminate].
        intros e [= <-]. split; [reflexivity|]. right.
        split; [assumption|]. split; [right; discriminate|reflexivity].
    + split; [reflexivity|]. split; [|discriminate].
      intros e [= <-]. split; [reflexivity|]. right.
      split; [assumption|]. split; [left; discriminate|reflexivity].
Qed.

Lemma add_edge_failure_leaves_graph_witness :
  add_edge 1 1 (snd (run build_path empty_graph))
  = (Throw (runtime_error "cannot add edge to same node"),
     snd (run build_path empty_graph)) /\
  add_edge 1 7 (snd (run build_path empty_graph))
  = (Throw (runtime_error "node missing"), snd (run build_path empty_graph)) /\
  snd (add_edge 7 1 (snd (run build_path empty_graph)))
  = snd (run build_path empty_graph).
Proof.
  split; [|split].
  - apply (add_edge_failure_leaves_graph 1 1 (snd (run build_path empty_graph))).
    reflexivity.
  - apply (add_edge_failure_leaves_graph 1 7 (snd (run build_path empty_graph))).
    + discriminate.
    + right. vm_compute. discriminate.
  - apply (add_edge_failure_leaves_graph 7 1 (snd (run build_path empty_graph)))
      with (e := runtime_error "node missing").
    reflexivity.
Defined.

(** C8. [add_edge] is idempotent.  For live distinct nodes [a] and [b]
    the call succeeds; a second call, with the endpoints in either order,
    succeeds and leaves the graph unchanged; and when [a] and [b] were not
    joined before, the edge count after the calls is the count before
    plus one (the counts being below 2^32, the range of the [unsigned]
    that [get_edge_count] returns). *)
Theorem add_edge_idempotent g a b :
  live a g -> live b g -> a <> b ->
  exists g1,
    add_edge a b g = (Ret tt, g1) /\
    add_edge a b g1 = (Ret tt, g1) /\
    add_edge b a g1 = (Ret tt, g1) /\
    (has_edge a b g = false ->
     edges_size g + 1 < UINT_MOD ->
     exists c,
       get_edge_count g = (Ret c, g) /\
       run (add_edge a b ;; add_edge a b ;; get_edge_count) g = (Ret (c + 1), g1) /\
       run (add_edge a b ;; add_edge b a ;; get_edge_count) g = (Ret (c + 1), g1)).
Proof.
  unfold live. intros Ha Hb Hne.
  assert (Hab : (a =? b) = false) by now apply Z.eqb_neq.
  assert (Hba : (b =? a) = false) by (apply Z.eqb_neq; congruence).
  assert (Hcall : forall x y g0,
             (x =? y) = false -> _nodes g0 = _nodes g ->
             nodes_mem x (_nodes g) = true -> nodes_mem y (_nodes g) = true ->
             existsb (connects x y) (_edges g0) = true ->
             add_edge x y g0 = (Ret tt, g0)).
  { intros x y g0 Hxy Hnodes Hx Hy Hex. unfold add_edge.
    now rewrite Hxy, Hnodes, Hx, Hy, Hex. }
  destruct (existsb (connects a b) (_edges g)) eqn:Hfind.
  - exists g. split; [now apply Hcall|]. split; [now apply Hcall|].
    split; [apply Hcall; try assumption; try reflexivity;
            now rewrite existsb_connects_sym|].
    unfold has_edge. intros Hno _. congruence.
  - set (g1 := set_edges (_edges g ++ [new_Edge a b]) g).
    assert (Hex : existsb (connects a b) (_edges g1) = true).
    { simpl. rewrite existsb_app. simpl. rewrite connects_new_Edge.
      apply orb_true_iff. right. reflexivity. }
    assert (H0 : add_edge a b g = (Ret tt, g1)).
    { unfold add_edge. now rewrite Hab, Ha, Hb, Hfind. }
    assert (H1 : add_edge a b g1 = (Ret tt, g1))
      by (apply Hcall; try assumption; reflexivity).
    assert (H2 : add_edge b a g1 = (Ret tt, g1))
      by (apply Hcall; try assumption; try reflexivity;
          now rewrite existsb_connects_sym).
    exists g1. repeat split; try assumption.
    intros _ Hbound. exists (edges_size g).
    assert (Hsize : edges_size g1 = edges_size g + 1).
    { unfold edges_size. simpl. rewrite length_app. simpl. lia. }
    assert (Hpos : 0 <= edges_size g) by (unfold edges_size; lia).
    assert (Hc : get_edge_count g1 = (Ret (edges_size g + 1), g1)).
    { unfold get_edge_count. rewrite Hsize, to_unsigned_small by lia. reflexivity. }
    split; [|split].
    + unfold get_edge_count. rewrite to_unsigned_small by lia. reflexivity.
    + unfold run, bind. now rewrite H0, H1, Hc.
    + unfold run, bind. now rewrite H0, H2, Hc.
Qed.

Lemma add_edge_idempotent_witness :
  exists g1,
    add_edge 0 2 (snd (run build_path empty_graph)) = (Ret tt, g1) /\
    add_edge 0 2 g1 = (Ret tt, g1) /\
    add_edge 2 0 g1 = (Ret tt, g1) /\
    get_edge_count (snd (run build_path empty_graph))
    = (Ret 2, snd (run build_path empty_graph)) /\
    run (add_edge 0 2 ;; add_edge 0 2 ;; get_edge_count)
        (snd (run build_path empty_graph)) = (Ret 3, g1) /\
    run (add_edge 0 2 ;; add_edge 2 0 ;; get_edge_count)
        (snd (run build_path empty_graph)) = (Ret 3, g1).
Proof.
  destruct (add_edge_idempotent (snd (run build_path empty_graph)) 0 2)
    as [g1 [H1 [H2 [H3 H4]]]].
  - vm_compute. reflexivity.
  - vm_compute. reflexivity.
  - discriminate.
  - destruct H4 as [c [Hc [H5 H6]]].
    + vm_compute. reflexivity.
    + vm_compute. reflexivity.
    + assert (Ec : c = 2) by (vm_compute in Hc; now injection Hc).
      subst c. exists g1. repeat split; assumption.
Defined.

(** ** Winner selection on the empty graph *)

(** C10. With no node in the graph [find_wpu] does not throw: it returns
    4294967295 = 2^32 - 1, the conversion of -1 to [unsigned], and leaves
    the graph as it was.  The value is also an id a node can have, and
    the answer of [find_wpu] when the node of that id is the only one. *)
Theorem find_wpu_empty g :
  _nodes g = [] ->
  find_wpu g = (Ret 4294967295, g) /\
  4294967295 = to_unsigned (-1) /\
  4294967295 = 2 ^ 32 - 1 /\
  exists g',
    run (set_node_error 4294967295 Float32.zero) empty_graph = (Ret tt, g') /\
    live 4294967295 g' /\
    find_wpu g' = (Ret 4294967295, g').
Proof.
  intros H. split.
  - unfold find_wpu. rewrite H. reflexivity.
  - split; [reflexivity|]. split; [reflexivity|].
    eexists. split; [reflexivity|]. split; reflexivity.
Qed.

Lemma find_wpu_empty_witness :
  find_wpu empty_graph = (Ret 4294967295, empty_graph) /\
  4294967295 = to_unsigned (-1) /\
  4294967295 = 2 ^ 32 - 1 /\
  exists g',
    run (set_node_error 4294967295 Float32.zero) empty_graph = (Ret tt, g') /\
    live 4294967295 g' /\
    find_wpu g' = (Ret 4294967295, g').
Proof. apply (find_wpu_empty empty_graph). reflexivity. Defined.

(** ** Removal of a node, in general *)

Lemma nodes_mem_erase_other x y m :
  y <> x -> nodes_mem y (nodes_erase x m) = nodes_mem y m.
Proof.
  intros Hne. induction m as [|[k n] m IH]; simpl; [reflexivity|].
  destruct (Z.eqb_spec k x) as [->|Hk]; simpl.
  - rewrite IH. destruct (Z.eqb_spec x y); [congruence|reflexivity].
  - now rewrite IH.
Qed.

(** X2. What [remove_node] does keep of its contract.  On a live id it
    returns; the id is no longer live and the other ids are as before; no
    edge that does not touch the id is erased and no edge is added.  On
    an id that is not live it throws "node missing" and changes
    nothing. *)
Theorem remove_node_effect x g :
  (live x g ->
   exists g',
     remove_node x g = (Ret tt, g') /\
     ~ live x g' /\
     (forall y, y <> x -> (live y g' <-> live y g)) /\
     (forall e, In e (_edges g) -> incident x e = false -> In e (_edges g')) /\
     (forall e, In e (_edges g') -> In e (_edges g))) /\
  (~ live x g ->
   remove_node x g = (Throw (runtime_error "node missing"), g)).
Proof.
  unfold live, remove_node, _remove_node. split.
  - intros Hx. rewrite Hx. simpl. eexists. split; [reflexivity|]. simpl.
    rewrite nodes_mem_erase, erase_if_skip.
    split; [discriminate|]. split; [|split].
    + intros y Hy. now rewrite nodes_mem_erase_other.
    + intros e Hin He. now apply (skip_erase_keeps _ (length (_edges g))).
    + intros e. now apply (skip_erase_incl _ (length (_edges g))).
  - intros Hx. apply not_true_iff_false in Hx. now rewrite Hx.
Qed.

Lemma remove_node_effect_witness :
  (exists g',
     remove_node 1 (snd (run build_path empty_graph)) = (Ret tt, g') /\
     ~ live 1 g') /\
  remove_node 7 (snd (run build_path empty_graph))
  = (Throw (runtime_error "node missing"), snd (run build_path empty_graph)).
Proof.
  split.
  - destruct (proj1 (remove_node_effect 1 (snd (run build_path empty_graph))))
      as [g' [H1 [H2 _]]]; [reflexivity|].
    exists g'. now split.
  - apply (remove_node_effect 7 (snd (run build_path empty_graph))).
    vm_compute. discriminate.
Defined.

(** ** Orphans *)

Lemma skip_erase_none p l : existsb p l = false -> skip_erase p l = l.
Proof.
  induction l as [|e l IH]; simpl; [reflexivity|].
  intros H. apply orb_false_iff in H as [He Hl]. rewrite He. now rewrite IH.
Qed.

Lemma set_nodes_same g : set_nodes (_nodes g) g = g.
Proof. now destruct g. Qed.

(** Removing a node that no edge touches only takes it out of the map. *)
Lemma remove_node_orphan o g :
  nodes_mem o (_nodes g) = true ->
  existsb (incident o) (_edges g) = false ->
  _remove_node o g = (Ret tt, set_nodes (nodes_erase o (_nodes g)) g).
Proof.
  intros Hm He. unfold _remove_node. rewrite Hm. simpl.
  rewrite erase_if_skip, skip_erase_none by assumption.
  now destruct g.
Qed.

Lemma filter_nodes_erase (f : unsigned * Node -> bool) o m :
  filter f (nodes_erase o m)
  = filter (fun kv => negb (fst kv =? o) && f kv) m.
Proof.
  unfold nodes_erase. induction m as [|[k n] m IH]; [reflexivity|].
  simpl. destruct (k =? o); simpl; [exact IH|].
  destruct (f (k, n)); now rewrite IH.
Qed.

Lemma remove_all_orphans : forall os g,
  NoDup os ->
  (forall o, In o os ->
     nodes_mem o (_nodes g) = true /\ existsb (incident o) (_edges g) = false) ->
  remove_all os g
  = (Ret tt,
     set_nodes (filter (fun kv => negb (existsb (Z.eqb (fst kv)) os)) (_nodes g)) g).
Proof.
  induction os as [|o os IH]; intros g Hnd Hall; simpl.
  - unfold ret. f_equal. rewrite <- (set_nodes_same g) at 1. f_equal.
    symmetry. apply forallb_filter_id. now apply forallb_forall.
  - inversion Hnd as [|? ? Hnotin Hnd']; subst.
    destruct (Hall o (or_introl eq_refl)) as [Hm He].
    unfold bind. rewrite remove_node_orphan by assumption.
    rewrite IH; [|assumption|].
    + simpl. rewrite filter_nodes_erase. unfold set_nodes. simpl. do 2 f_equal.
      apply filter_ext. intros kv. rewrite negb_orb. reflexivity.
    + intros o' Hin. destruct (Hall o' (or_intror Hin)) as [Hm' He'].
      simpl. split; [|assumption].
      rewrite nodes_mem_erase_other; [assumption|]. intros ->. contradiction.
Qed.

Lemma NoDup_keys_filter (f : unsigned * Node -> bool) m :
  NoDup (map fst m) -> NoDup (map fst (filter f m)).
Proof.
  induction m as [|kv m IH]; simpl; intros H; [constructor|].
  inversion H as [|? ? Hnotin Hnd]; subst.
  destruct (f kv); simpl; [|now apply IH].
  constructor; [|now apply IH].
  intros Hin. apply Hnotin. apply in_map_iff in Hin as [kv' [Hk Hin]].
  apply filter_In in Hin as [Hin _]. apply in_map_iff. now exists kv'.
Qed.

Lemma orphans_of_In x g :
  In x (orphans_of g) <->
  live x g /\ existsb (incident x) (_edges g) = false.
Proof.
  unfold orphans_of, live. rewrite in_map_iff, nodes_mem_In, in_map_iff. split.
  - intros [kv [<- Hin]]. apply filter_In in Hin as [Hin Ho].
    split; [now exists kv|now apply negb_true_iff].
  - intros [[kv [<- Hin]] Ho]. exists kv. split; [reflexivity|].
    apply filter_In. split; [assumption|now apply negb_true_iff].
Qed.

(** X3. On a map that holds every key once, [purge_orphans] returns the
    nodes no edge touches, each once, and removes them: afterwards the
    live nodes are those an edge touches, and the edges are as before. *)
Theorem purge_orphans_spec g :
  nodes_wf g ->
  exists g',
    purge_orphans g = (Ret (orphans_of g), g') /\
    NoDup (orphans_of g) /\
    (forall x, In x (orphans_of g) <->
               live x g /\ existsb (incident x) (_edges g) = false) /\
    (forall x, In x (orphans_of g) -> ~ live x g') /\
    (forall x, live x g' <->
               live x g /\ existsb (incident x) (_edges g) = true) /\
    _edges g' = _edges g.
Proof.
  unfold nodes_wf, keys. intros Hwf.
  assert (Hnd : NoDup (orphans_of g)) by now apply NoDup_keys_filter.
  assert (Hall : forall o, In o (orphans_of g) ->
            nodes_mem o (_nodes g) = true /\ existsb (incident o) (_edges g) = false)
    by (intros o Ho; now apply orphans_of_In).
  assert (Hlive : forall x,
            nodes_mem x (filter (fun kv => negb (existsb (Z.eqb (fst kv)) (orphans_of g)))
                           (_nodes g)) = true <->
            nodes_mem x (_nodes g) = true /\ existsb (incident x) (_edges g) = true).
  { intros x. rewrite !nodes_mem_In, in_map_iff. split.
    - intros [kv [<- Hin]]. apply filter_In in Hin as [Hin Hno].
      split; [apply in_map_iff; now exists kv|].
      destruct (existsb (incident (fst kv)) (_edges g)) eqn:E; [reflexivity|].
      exfalso. apply negb_true_iff in Hno.
      assert (Ho : In (fst kv) (orphans_of g)).
      { apply orphans_of_In. split; [|assumption].
        apply nodes_mem_In, in_map_iff. now exists kv. }
      assert (X : existsb (Z.eqb (fst kv)) (orphans_of g) = true).
      { apply existsb_exists. exists (fst kv). split; [assumption|apply Z.eqb_refl]. }
      exact (eq_true_false_abs _ X Hno).
    - intros [Hin He]. apply in_map_iff in Hin as [kv [<- Hin]].
      exists kv. split; [reflexivity|]. apply filter_In. split; [assumption|].
      apply negb_true_iff. apply not_true_iff_false. intros X.
      apply existsb_exists in X as [o [Ho Heq]]. apply Z.eqb_eq in Heq. subst o.
      apply orphans_of_In in Ho as [_ Ho]. exact (eq_true_false_abs _ He Ho). }
  eexists. split.
  - unfold purge_orphans, bind. rewrite remove_all_orphans by assumption.
    reflexivity.
  - split; [assumption|]. split; [intros x; apply orphans_of_In|]. split; [|split].
    + intros x Hx Hl. apply Hlive in Hl as [_ Hl].
      apply orphans_of_In in Hx as [_ Hx]. congruence.
    + intros x. apply Hlive.
    + reflexivity.
Qed.

Lemma purge_orphans_spec_witness :
  exists g',
    purge_orphans (snd (run (build_path ;; remove_edge 1 2) empty_graph))
    = (Ret [2], g') /\
    _nodes g' = [(0, default_Node); (1, default_Node)].
Proof.
  destruct (purge_orphans_spec (snd (run (build_path ;; remove_edge 1 2) empty_graph)))
    as [g' [H _]].
  - vm_compute. repeat constructor; simpl; intuition discriminate.
  - exists g'. split; [exact H|].
    vm_compute in H. now injection H as <-.
Defined.

(** ** Missing edges *)

Lemma find_edge_None a b es :
  find_edge a b es = None <-> existsb (connects a b) es = false.
Proof.
  induction es as [|e es IH]; simpl; [tauto|].
  destruct (connects a b e); simpl; [split; discriminate|].
  rewrite <- IH. destruct (find_edge a b es); simpl; split; congruence.
Qed.

Lemma find_connects_None a b es :
  existsb (connects a b) es = false -> find (connects a b) es = None.
Proof.
  induction es as [|e es IH]; simpl; [reflexivity|].
  destruct (connects a b e); simpl; [discriminate|assumption].
Qed.

(** X5. Without an edge between [a] and [b], [remove_edge],
    [get_edge_age] and [set_edge_age] throw "edge not found" and change
    nothing. *)
Theorem missing_edge_throws a b v g :
  has_edge a b g = false ->
  remove_edge a b g = (Throw (runtime_error "edge not found"), g) /\
  get_edge_age a b g = (Throw (runtime_error "edge not found"), g) /\
  set_edge_age a b v g = (Throw (runtime_error "edge not found"), g).
Proof.
  unfold has_edge, remove_edge, get_edge_age, set_edge_age. intros H.
  rewrite find_connects_None by assumption.
  apply find_edge_None in H. rewrite H. repeat split.
Qed.

Lemma missing_edge_throws_witness :
  remove_edge 0 2 (snd (run build_path empty_graph))
  = (Throw (runtime_error "edge not found"), snd (run build_path empty_graph)) /\
  get_edge_age 0 2 (snd (run build_path empty_graph))
  = (Throw (runtime_error "edge not found"), snd (run build_path empty_graph)) /\
  set_edge_age 0 2 (Float32.of_Z 1) (snd (run build_path empty_graph))
  = (Throw (runtime_error "edge not found"), snd (run build_path empty_graph)).
Proof.
  apply (missing_edge_throws 0 2 (Float32.of_Z 1) (snd (run build_path empty_graph))).
  reflexivity.
Defined.

(** * Further properties of the operations *)

(** ** The erase loop, exactly *)

(** Induction on a list two elements at a time, as [skip_erase] recurses. *)
Lemma list_ind2 {A} (P : list A -> Prop) :
  P [] -> (forall x, P [x]) ->
  (forall x y l, P l -> P (y :: l) -> P (x :: y :: l)) ->
  forall l, P l.
Proof.
  intros H0 H1 H2 l.
  assert (H : P l /\ forall x, P (x :: l)); [|apply H].
  induction l as [|y l [IH1 IH2]]; split; auto.
Qed.

Section SkipErase.

Variable p : Edge -> bool.

(** The loop leaves an element that passes the test exactly when two such
    elements are neighbours in the vector. *)
Lemma skip_erase_exact l :
  negb (existsb p (skip_erase p l)) = no_adjacent p l.
Proof.
  induction l as [|x|x y l IH1 IH2] using list_ind2.
  - reflexivity.
  - simpl. destruct (p x) eqn:Hx; simpl; rewrite ?Hx; reflexivity.
  - change (skip_erase p (x :: y :: l))
      with (if p x then y :: skip_erase p l else x :: skip_erase p (y :: l)).
    change (no_adjacent p (x :: y :: l))
      with (negb (p x && p y) && no_adjacent p (y :: l)).
    destruct (p x) eqn:Hx.
    + simpl existsb. destruct (p y) eqn:Hy; [reflexivity|].
      simpl. rewrite IH1. simpl in *. rewrite Hy. simpl.
      destruct l; reflexivity.
    + cbn [existsb]. rewrite Hx. simpl orb. simpl andb. simpl negb.
      exact IH2.
Qed.

Lemma skip_erase_filter l :
  no_adjacent p l = true ->
  skip_erase p l = filter (fun e => negb (p e)) l.
Proof.
  induction l as [|x|x y l IH1 IH2] using list_ind2.
  - reflexivity.
  - intros _. simpl. destruct (p x); reflexivity.
  - change (skip_erase p (x :: y :: l))
      with (if p x then y :: skip_erase p l else x :: skip_erase p (y :: l)).
    change (no_adjacent p (x :: y :: l))
      with (negb (p x && p y) && no_adjacent p (y :: l)).
    intros H. apply andb_true_iff in H as [Hxy Hrest].
    destruct (p x) eqn:Hx.
    + simpl in Hxy. apply negb_true_iff in Hxy.
      cbn [filter]. rewrite Hx, Hxy. simpl negb. cbv iota.
      f_equal. apply IH1. simpl in Hrest. rewrite Hxy in Hrest.
      simpl in Hrest. destruct l; [reflexivity|exact Hrest].
    + cbn [filter]. rewrite Hx. simpl negb. cbv iota.
      f_equal. fold (filter (fun e => negb (p e)) (y :: l)). now apply IH2.
Qed.

Lemma skip_erase_subseq l : subseq (skip_erase p l) l.
Proof.
  induction l as [|x|x y l IH1 IH2] using list_ind2.
  - constructor.
  - simpl. destruct (p x).
    + apply subseq_drop, subseq_nil.
    + apply subseq_keep, subseq_nil.
  - change (skip_erase p (x :: y :: l))
      with (if p x then y :: skip_erase p l else x :: skip_erase p (y :: l)).
    destruct (p x).
    + apply subseq_drop. now apply subseq_keep.
    + now apply subseq_keep.
Qed.

End SkipErase.

Lemma negb_false_true_iff b c : negb b = c -> (b = false <-> c = true).
Proof. intros <-. destruct b; simpl; split; congruence. Qed.

(** X6. [purge_old_edges] removes every edge older than [max_age] exactly
    when no two such edges are neighbours in the edge vector; it is then
    the filter that keeps the edges that are not older. *)
Theorem purge_old_edges_exact max_age g :
  exists g',
    purge_old_edges max_age g = (Ret tt, g') /\
    (existsb (fun e => Float32.gtb (age e) max_age) (_edges g') = false <->
     no_adjacent (fun e => Float32.gtb (age e) max_age) (_edges g) = true) /\
    (no_adjacent (fun e => Float32.gtb (age e) max_age) (_edges g) = true ->
     _edges g'
     = filter (fun e => negb (Float32.gtb (age e) max_age)) (_edges g)).
Proof.
  eexists. split; [reflexivity|]. simpl. rewrite erase_if_skip. split.
  - apply negb_false_true_iff. apply skip_erase_exact.
  - apply skip_erase_filter.
Qed.

Lemma edge_ok_erase x g e :
  incident x e = false ->
  edge_ok (set_nodes (nodes_erase x (_nodes g)) g) e = edge_ok g e.
Proof.
  unfold incident, edge_ok. intros H. apply orb_false_iff in H as [H1 H2].
  apply Z.eqb_neq in H1, H2. simpl.
  now rewrite !nodes_mem_erase_other.
Qed.

Lemma edge_ok_incident_dead x g e :
  incident x e = true ->
  edge_ok (set_nodes (nodes_erase x (_nodes g)) g) e = false.
Proof.
  unfold incident, edge_ok. intros H. simpl.
  apply orb_true_iff in H as [H|H]; apply Z.eqb_eq in H; rewrite H;
    rewrite nodes_mem_erase; [now rewrite andb_false_r|apply andb_false_r].
Qed.

(** X7. [remove_node(x)] on a live id removes every edge incident to [x]
    exactly when no two such edges are neighbours in the edge vector; it
    is then the filter that drops them, and from a state in which every
    edge joins two distinct live nodes it leads to such a state in this
    case and in no other. *)
Theorem remove_node_exact x g :
  live x g ->
  exists g',
    remove_node x g = (Ret tt, g') /\
    (existsb (incident x) (_edges g') = false <->
     no_adjacent (incident x) (_edges g) = true) /\
    (no_adjacent (incident x) (_edges g) = true ->
     _edges g' = filter (fun e => negb (incident x e)) (_edges g)) /\
    (edges_ok g = true ->
     (edges_ok g' = true <-> no_adjacent (incident x) (_edges g) = true)).
Proof.
  unfold live, remove_node, _remove_node. intros Hx. rewrite Hx. simpl.
  eexists. split; [reflexivity|]. simpl. rewrite erase_if_skip.
  split; [apply negb_false_true_iff, skip_erase_exact|].
  split; [apply skip_erase_filter|].
  intros Hok. unfold edges_ok in *. simpl.
  rewrite <- (skip_erase_exact (incident x) (_edges g)).
  rewrite forallb_forall in Hok. split.
  - intros H. rewrite forallb_forall in H.
    apply negb_true_iff, not_true_iff_false. intros Hex.
    apply existsb_exists in Hex as [e [Hin He]].
    specialize (H e Hin).
    pose proof (edge_ok_incident_dead x g e He) as Hdead.
    exact (eq_true_false_abs _ H Hdead).
  - intros H. apply negb_true_iff in H. apply forallb_forall. intros e Hin.
    assert (He : incident x e = false).
    { destruct (incident x e) eqn:E; [|reflexivity].
      assert (X : existsb (incident x) (skip_erase (incident x) (_edges g)) = true)
        by (apply existsb_exists; now exists e).
      congruence. }
    refine (eq_trans (edge_ok_erase x g e He) (Hok e _)).
    apply (skip_erase_incl (incident x) (length (_edges g)));
      [apply Nat.le_refl|exact Hin].
Qed.

Lemma remove_node_exact_witness :
  exists g',
    remove_node 0 (snd (run build_path empty_graph)) = (Ret tt, g') /\
    _edges g' = [new_Edge 1 2] /\
    edges_ok g' = true.
Proof.
  destruct (remove_node_exact 0 (snd (run build_path empty_graph)))
    as [g' [H1 [_ [H3 H4]]]]; [reflexivity|].
  exists g'. split; [exact H1|]. split.
  - rewrite H3; reflexivity.
  - apply H4; reflexivity.
Defined.

(** ** What the calls keep *)

Lemma subseq_refl {A} (l : list A) : subseq l l.
Proof. induction l; constructor; assumption. Qed.

Lemma subseq_In {A} (l1 l2 : list A) x : subseq l1 l2 -> In x l1 -> In x l2.
Proof.
  induction 1 as [|y l1 l2 _ IH|y l1 l2 _ IH]; simpl; intros Hin.
  - assumption.
  - right. now apply IH.
  - destruct Hin as [->|Hin]; [now left|right; now apply IH].
Qed.

Lemma subseq_existsb {A} (q : A -> bool) l1 l2 :
  subseq l1 l2 -> existsb q l1 = true -> existsb q l2 = true.
Proof.
  intros Hs H. apply existsb_exists in H as [x [Hin Hq]].
  apply existsb_exists. exists x. split; [now apply (subseq_In l1)|assumption].
Qed.

Lemma subseq_map {A B} (f : A -> B) l1 l2 :
  subseq l1 l2 -> subseq (map f l1) (map f l2).
Proof. induction 1; simpl; constructor; assumption. Qed.

Lemma erase_at_subseq {A} i (l : list A) : subseq (erase_at i l) l.
Proof.
  revert i. induction l as [|x l IH]; intros [|i]; simpl.
  - constructor.
  - constructor.
  - apply subseq_drop, subseq_refl.
  - apply subseq_keep, IH.
Qed.

Lemma simple_edges_subseq l1 l2 :
  subseq l1 l2 -> simple_edges l2 = true -> simple_edges l1 = true.
Proof.
  induction 1 as [|y l1 l2 Hs IH|y l1 l2 Hs IH]; simpl; intros H.
  - reflexivity.
  - apply andb_true_iff in H as [_ H]. now apply IH.
  - apply andb_true_iff in H as [H1 H2]. apply andb_true_iff in H1 as [H0 H1].
    rewrite H0, IH by assumption. simpl. rewrite andb_true_r.
    apply negb_true_iff in H1. apply negb_true_iff, not_true_iff_false.
    intros X. apply (subseq_existsb _ _ _ Hs) in X. congruence.
Qed.

Lemma connects_ends a b e e' : ends e = ends e' -> connects a b e = connects a b e'.
Proof. unfold ends, connects. now intros [= -> ->]. Qed.

Lemma existsb_connects_ends a b l l' :
  map ends l = map ends l' ->
  existsb (connects a b) l = existsb (connects a b) l'.
Proof.
  revert l'. induction l as [|e l IH]; intros [|e' l']; simpl; try discriminate.
  - reflexivity.
  - intros [= H1 H2 Hl].
    assert (He : ends e = ends e') by (unfold ends; congruence).
    now rewrite (connects_ends a b e e' He), (IH l' Hl).
Qed.

Lemma simple_edges_ends l l' :
  map ends l = map ends l' -> simple_edges l = simple_edges l'.
Proof.
  revert l'. induction l as [|e l IH]; intros [|e' l']; simpl; try discriminate.
  - reflexivity.
  - intros [= H1 H2 Hl]. rewrite (IH l' Hl), (existsb_connects_ends _ _ l l' Hl).
    now rewrite H1, H2.
Qed.

Lemma ends_update_at f i l :
  (forall e, ends (f e) = ends e) ->
  map ends (update_at f i l) = map ends l.
Proof.
  intros Hf. revert i. induction l as [|e l IH]; intros [|i]; simpl;
    try reflexivity.
  - now rewrite Hf.
  - now rewrite IH.
Qed.

Lemma ends_map f l :
  (forall e, ends (f e) = ends e) -> map ends (map f l) = map ends l.
Proof.
  intros Hf. rewrite map_map. apply map_ext. exact Hf.
Qed.

Lemma connects_new_Edge_ends a b e :
  connects (n1 e) (n2 e) (new_Edge a b) = connects a b e.
Proof.
  unfold connects. simpl.
  destruct (Z.eqb_spec a (n1 e)), (Z.eqb_spec b (n2 e)),
           (Z.eqb_spec a (n2 e)), (Z.eqb_spec b (n1 e));
    destruct (Z.eqb_spec (n1 e) a), (Z.eqb_spec (n2 e) b),
             (Z.eqb_spec (n1 e) b), (Z.eqb_spec (n2 e) a);
    simpl; try reflexivity; congruence.
Qed.

Lemma simple_edges_app_new a b l :
  a <> b -> existsb (connects a b) l = false -> simple_edges l = true ->
  simple_edges (l ++ [new_Edge a b]) = true.
Proof.
  intros Hab. induction l as [|e l IH]; simpl; intros Hex Hs.
  - apply Z.eqb_neq in Hab. now rewrite Hab.
  - apply orb_false_iff in Hex as [He Hex].
    apply andb_true_iff in Hs as [H1 Hs]. apply andb_true_iff in H1 as [H0 H1].
    rewrite H0, IH by assumption. simpl. rewrite andb_true_r.
    rewrite existsb_app. simpl. apply negb_true_iff in H1. rewrite H1. simpl.
    rewrite orb_false_r. apply negb_true_iff.
    now rewrite connects_new_Edge_ends.
Qed.

Lemma keys_nodes_set k n m : map fst (nodes_set k n m) = map fst m.
Proof.
  induction m as [|[k' n'] m IH]; simpl; [reflexivity|].
  destruct (k' =? k); simpl; [reflexivity|now rewrite IH].
Qed.

Lemma nodes_mem_keys k m m' :
  map fst m = map fst m' -> nodes_mem k m = nodes_mem k m'.
Proof.
  revert m'. induction m as [|[k1 x1] m IH]; intros [|[k2 x2] m']; simpl;
    try discriminate; [reflexivity|].
  intros [= -> Hm]. now rewrite (IH m' Hm).
Qed.

Lemma NoDup_keys_emplace k n m :
  NoDup (map fst m) -> NoDup (map fst (nodes_emplace k n m)).
Proof.
  intros H. unfold nodes_emplace. destruct (nodes_mem k m) eqn:E; [assumption|].
  rewrite map_app. simpl. apply NoDup_app; [assumption|repeat constructor; auto|].
  intros x Hin [<-|[]]. apply nodes_mem_In in Hin. congruence.
Qed.

(** The state [add_node] leaves: the state it found, or that state with
    one fresh key at the end of the map. *)
Lemma add_node_loop_state fuel : forall i g,
  snd (add_node_loop fuel i g) = g \/
  exists r, nodes_mem r (_nodes g) = false /\
            snd (add_node_loop fuel i g)
            = set_nodes (_nodes g ++ [(r, default_Node)]) g.
Proof.
  induction fuel as [|fuel IH]; intros i g; simpl; [now left|].
  destruct (i <? _); [|now left].
  destruct (nodes_mem i (_nodes g)) eqn:E; simpl; [apply IH|].
  right. exists i. split; [assumption|].
  unfold nodes_emplace. now rewrite E.
Qed.

(** A property of states that [_remove_node] keeps is kept by the second
    loop of [purge_orphans]. *)
Lemma remove_all_keeps (P : SomGraph -> Prop) :
  (forall o g, P g -> P (snd (_remove_node o g))) ->
  forall os g, P g -> P (snd (remove_all os g)).
Proof.
  intros Hstep os. induction os as [|o os IH]; intros g Hg; simpl; [assumption|].
  unfold bind. specialize (Hstep o g Hg).
  destruct (_remove_node o g) as [[[]|e|] g1]; simpl in *;
    [now apply IH|assumption|assumption].
Qed.

Lemma purge_orphans_state g :
  snd (purge_orphans g) = snd (remove_all (orphans_of g) g).
Proof.
  unfold purge_orphans, bind.
  destruct (remove_all (orphans_of g) g) as [[[]|e|] g1]; reflexivity.
Qed.

Lemma wf_simple_remove_node o g :
  wf_simple g -> wf_simple (snd (_remove_node o g)).
Proof.
  unfold wf_simple, nodes_wf, keys, _remove_node. intros [Hn He].
  destruct (nodes_mem o (_nodes g)); simpl; [|now split].
  split; [now apply NoDup_keys_filter|].
  rewrite erase_if_skip.
  apply (simple_edges_subseq _ (_edges g)); [apply skip_erase_subseq|assumption].
Qed.

Lemma wf_simple_exec c g : wf_simple g -> wf_simple (exec c g).
Proof.
  intros H. pose proof H as [Hn He]. unfold nodes_wf, keys in Hn.
  destruct c; simpl; try exact H.
  - (* add_node *)
    unfold add_node.
    destruct (add_node_loop_state (S (length (_nodes g))) 0 g) as [->|[r [Hr ->]]];
      [exact H|].
    split; [|exact He]. unfold nodes_wf, keys. simpl.
    rewrite map_app. simpl. apply NoDup_app; [assumption|repeat constructor; auto|].
    intros x Hin [<-|[]]. apply nodes_mem_In in Hin. congruence.
  - (* add_edge *)
    unfold add_edge. destruct (Z.eqb_spec node1 node2); [exact H|].
    destruct (negb _ || negb _); [exact H|].
    destruct (existsb (connects node1 node2) (_edges g)) eqn:E; [exact H|].
    split; [exact Hn|]. simpl. now apply simple_edges_app_new.
  - (* remove_node *)
    now apply wf_simple_remove_node.
  - (* remove_edge *)
    unfold remove_edge. destruct (find_edge node1 node2 (_edges g)); [|exact H].
    split; [exact Hn|]. simpl.
    apply (simple_edges_subseq _ (_edges g)); [apply erase_at_subseq|assumption].
  - (* purge_old_edges *)
    split; [exact Hn|]. simpl. rewrite erase_if_skip.
    apply (simple_edges_subseq _ (_edges g)); [apply skip_erase_subseq|assumption].
  - (* purge_orphans *)
    rewrite purge_orphans_state.
    apply remove_all_keeps; [apply wf_simple_remove_node|exact H].
  - (* get_edge_age *)
    unfold get_edge_age. destruct (find _ _); exact H.
  - (* set_edge_age *)
    unfold set_edge_age. destruct (find_edge node1 node2 (_edges g)); [|exact H].
    split; [exact Hn|]. simpl.
    rewrite (simple_edges_ends _ (_edges g)); [assumption|].
    now apply ends_update_at.
  - (* get_node_error *)
    split; [|exact He]. unfold nodes_wf, keys. simpl.
    now apply NoDup_keys_emplace.
  - (* set_node_error *)
    split; [|exact He]. unfold nodes_wf, keys. simpl.
    rewrite keys_nodes_set. now apply NoDup_keys_emplace.
  - (* increment_age *)
    split; [exact Hn|]. simpl.
    rewrite (simple_edges_ends _ (_edges g)); [assumption|].
    now apply ends_map.
  - (* reset_errors *)
    split; [|exact He]. unfold nodes_wf, keys. simpl.
    rewrite map_map. simpl. exact Hn.
  - (* find_wpu *)
    unfold find_wpu. destruct (fold_left _ _ _). exact H.
Qed.

Lemma wf_simple_exec_all cs : forall g, wf_simple g -> wf_simple (exec_all cs g).
Proof.
  unfold exec_all. induction cs as [|c cs IH]; intros g H; simpl; [exact H|].
  apply IH. now apply wf_simple_exec.
Qed.

(** X8. Whatever the calls, the node map keeps every key once, no edge
    joins a node to itself and no two edges join the same two nodes: a
    sequence of calls started in a state of this kind ends in one. *)
Theorem calls_keep_simple_graph cs g :
  nodes_wf g -> simple_edges (_edges g) = true ->
  nodes_wf (exec_all cs g) /\ simple_edges (_edges (exec_all cs g)) = true.
Proof. intros Hn He. apply wf_simple_exec_all. now split. Qed.

Lemma calls_keep_simple_graph_witness :
  nodes_wf (exec_all [AddNode; AddNode; AddEdge 0 1; AddEdge 1 0; AddEdge 1 1;
                      SetNodeError 1 Float32.one; RemoveNode 0] empty_graph) /\
  simple_edges (_edges (exec_all [AddNode; AddNode; AddEdge 0 1; AddEdge 1 0;
                                  AddEdge 1 1; SetNodeError 1 Float32.one;
                                  RemoveNode 0] empty_graph)) = true.
Proof.
  apply (calls_keep_simple_graph _ empty_graph); [constructor|reflexivity].
Defined.

(** ** Edges between live nodes *)

Lemma edge_ok_frame g g' e e' :
  (forall x, nodes_mem x (_nodes g) = true -> nodes_mem x (_nodes g') = true) ->
  ends e = ends e' -> edge_ok g e = true -> edge_ok g' e' = true.
Proof.
  unfold ends, edge_ok. intros Hn [= <- <-] H.
  apply andb_true_iff in H as [H H2]. apply andb_true_iff in H as [H0 H1].
  now rewrite H0, (Hn _ H1), (Hn _ H2).
Qed.

Lemma edges_ok_frame g g' :
  (forall x, nodes_mem x (_nodes g) = true -> nodes_mem x (_nodes g') = true) ->
  (forall e', In e' (_edges g') -> exists e, In e (_edges g) /\ ends e = ends e') ->
  edges_ok g = true -> edges_ok g' = true.
Proof.
  unfold edges_ok. intros Hn He H. rewrite forallb_forall in H.
  apply forallb_forall. intros e' Hin. destruct (He e' Hin) as [e [Hine Hends]].
  apply (edge_ok_frame g g' e e' Hn Hends). now apply H.
Qed.

Lemma In_update_at {A} (f : A -> A) i l x :
  In x (update_at f i l) -> In x l \/ exists y, In y l /\ x = f y.
Proof.
  revert i. induction l as [|a l IH]; intros [|i]; simpl; try tauto.
  - intros [<-|H]; [right; exists a; auto|left; now right].
  - intros [<-|H]; [left; now left|].
    destruct (IH i H) as [H'|[y [Hy ->]]]; [left; now right|].
    right. exists y. auto.
Qed.

(** Removing nodes that no edge touches keeps the edges, and keeps them
    between live nodes. *)
Lemma remove_all_orphans_edges_ok : forall os g,
  (forall o, In o os -> existsb (incident o) (_edges g) = false) ->
  edges_ok g = true ->
  edges_ok (snd (remove_all os g)) = true /\
  _edges (snd (remove_all os g)) = _edges g.
Proof.
  induction os as [|o os IH]; intros g Hos Hok; simpl; [now split|].
  unfold bind, _remove_node.
  destruct (nodes_mem o (_nodes g)) eqn:Hm; simpl; [|now split].
  assert (Ho : existsb (incident o) (_edges g) = false) by (apply Hos; now left).
  rewrite erase_if_skip, skip_erase_none by assumption.
  set (g1 := set_nodes (nodes_erase o (_nodes g)) (set_edges (_edges g) g)).
  assert (Hok1 : edges_ok g1 = true).
  { unfold edges_ok in *. rewrite forallb_forall in Hok.
    apply forallb_forall. intros e Hin.
    assert (He : incident o e = false).
    { destruct (incident o e) eqn:E; [|reflexivity].
      assert (X : existsb (incident o) (_edges g) = true)
        by (apply existsb_exists; now exists e).
      congruence. }
    exact (eq_trans (edge_ok_erase o g e He) (Hok e Hin)). }
  destruct (IH g1) as [H1 H2]; [|exact Hok1|now split].
  intros o' Hin. apply Hos. now right.
Qed.

Lemma edges_ok_exec c g :
  (forall x, c <> RemoveNode x) -> edges_ok g = true -> edges_ok (exec c g) = true.
Proof.
  intros Hc Hok.
  assert (Hsub : forall es,
             (forall e, In e es -> In e (_edges g)) ->
             edges_ok (set_edges es g) = true).
  { intros es Hes. apply (edges_ok_frame g); [auto| |exact Hok].
    intros e' Hin. exists e'. split; [now apply Hes|reflexivity]. }
  assert (Hgrow : forall ns,
             (forall x, nodes_mem x (_nodes g) = true -> nodes_mem x ns = true) ->
             edges_ok (set_nodes ns g) = true).
  { intros ns Hns. apply (edges_ok_frame g); [exact Hns| |exact Hok].
    intros e' Hin. now exists e'. }
  destruct c; simpl; try exact Hok.
  - (* add_node *)
    unfold add_node.
    destruct (add_node_loop_state (S (length (_nodes g))) 0 g) as [->|[r [Hr ->]]];
      [exact Hok|].
    apply Hgrow. intros x Hx. rewrite nodes_mem_app, Hx. reflexivity.
  - (* add_edge *)
    unfold add_edge. destruct (Z.eqb_spec node1 node2); [exact Hok|].
    destruct (nodes_mem node1 (_nodes g)) eqn:H1; [|exact Hok].
    destruct (nodes_mem node2 (_nodes g)) eqn:H2; [|exact Hok]. simpl.
    destruct (existsb (connects node1 node2) (_edges g)); [exact Hok|].
    unfold edges_ok in *. simpl. rewrite forallb_app. simpl.
    change (forallb (edge_ok (set_edges (_edges g ++ [new_Edge node1 node2]) g))
              (_edges g)) with (forallb (edge_ok g) (_edges g)).
    rewrite Hok. unfold edge_ok. simpl. rewrite H1, H2.
    apply Z.eqb_neq in n. now rewrite n.
  - (* remove_node *)
    exfalso. now apply (Hc node).
  - (* remove_edge *)
    unfold remove_edge. destruct (find_edge node1 node2 (_edges g)); [|exact Hok].
    apply Hsub. intros e. apply subseq_In, erase_at_subseq.
  - (* purge_old_edges *)
    apply Hsub. intros e. rewrite erase_if_skip. apply subseq_In, skip_erase_subseq.
  - (* purge_orphans *)
    rewrite purge_orphans_state.
    apply remove_all_orphans_edges_ok; [|exact Hok].
    intros o Ho. now apply orphans_of_In in Ho.
  - (* get_edge_age *)
    unfold get_edge_age. destruct (find _ _); exact Hok.
  - (* set_edge_age *)
    unfold set_edge_age. destruct (find_edge node1 node2 (_edges g)); [|exact Hok].
    apply (edges_ok_frame g); [auto| |exact Hok].
    intros e' Hin. simpl in Hin. apply In_update_at in Hin as [Hin|[y [Hy ->]]].
    + now exists e'.
    + now exists y.
  - (* get_node_error *)
    apply Hgrow. intros x Hx. unfold nodes_index, nodes_emplace.
    destruct (nodes_mem node (_nodes g)); [exact Hx|].
    rewrite nodes_mem_app, Hx. reflexivity.
  - (* set_node_error *)
    apply Hgrow. intros x Hx.
    rewrite (nodes_mem_keys x _ (nodes_index node (_nodes g)))
      by apply keys_nodes_set.
    unfold nodes_index, nodes_emplace.
    destruct (nodes_mem node (_nodes g)); [exact Hx|].
    rewrite nodes_mem_app, Hx. reflexivity.
  - (* increment_age *)
    apply (edges_ok_frame g); [auto| |exact Hok].
    intros e' Hin. simpl in Hin. apply in_map_iff in Hin as [y [<- Hy]].
    now exists y.
  - (* reset_errors *)
    apply Hgrow. intros x Hx.
    rewrite (nodes_mem_keys x _ (_nodes g)); [exact Hx|].
    rewrite map_map. reflexivity.
  - (* find_wpu *)
    unfold find_wpu. destruct (fold_left _ _ _). exact Hok.
Qed.

(** X9. Every call other than [remove_node] keeps the edges between
    distinct live nodes: a sequence of calls without [remove_node],
    started in a state where every edge joins two distinct live nodes,
    ends in such a state. *)
Theorem calls_keep_edges_ok cs g :
  (forall x, ~ In (RemoveNode x) cs) ->
  edges_ok g = true ->
  edges_ok (exec_all cs g) = true.
Proof.
  unfold exec_all. revert g. induction cs as [|c cs IH]; intros g Hcs Hok; simpl;
    [exact Hok|].
  apply IH.
  - intros x Hin. apply (Hcs x). now right.
  - apply edges_ok_exec; [|exact Hok]. intros x ->. apply (Hcs x). now left.
Qed.

Lemma calls_keep_edges_ok_witness :
  edges_ok (exec_all [AddNode; AddNode; AddNode; AddEdge 0 1; AddEdge 1 2;
                      IncrementAge; PurgeOldEdges Float32.zero; PurgeOrphans;
                      GetNodeError 9] empty_graph) = true.
Proof.
  apply (calls_keep_edges_ok _ empty_graph); [|reflexivity].
  intros x H. simpl in H.
  repeat (destruct H as [H|H]; [discriminate|]). exact H.
Defined.

(** ** Where nodes and edges come from *)

Lemma has_edge_subseq a b g es :
  subseq es (_edges g) ->
  existsb (connects a b) es = true -> has_edge a b g = true.
Proof. intros Hs. unfold has_edge. now apply subseq_existsb. Qed.

Lemma nodes_mem_erase_le x y m :
  nodes_mem y (nodes_erase x m) = true -> nodes_mem y m = true.
Proof.
  destruct (Z.eq_dec y x) as [->|Hne].
  - now rewrite nodes_mem_erase.
  - now rewrite nodes_mem_erase_other.
Qed.

Lemma remove_node_shrinks o g :
  (forall x, live x (snd (_remove_node o g)) -> live x g) /\
  (forall a b, has_edge a b (snd (_remove_node o g)) = true -> has_edge a b g = true).
Proof.
  unfold _remove_node, live. destruct (nodes_mem o (_nodes g)); simpl;
    [|split; auto].
  split.
  - intros x. apply nodes_mem_erase_le.
  - intros a b. unfold has_edge at 1. simpl. rewrite erase_if_skip.
    apply has_edge_subseq, skip_erase_subseq.
Qed.

Lemma remove_all_shrinks os g :
  (forall x, live x (snd (remove_all os g)) -> live x g) /\
  (forall a b, has_edge a b (snd (remove_all os g)) = true -> has_edge a b g = true).
Proof.
  apply (remove_all_keeps
           (fun g' => (forall x, live x g' -> live x g) /\
                      (forall a b, has_edge a b g' = true -> has_edge a b g = true)));
    [|split; auto].
  intros o g' [H1 H2]. destruct (remove_node_shrinks o g') as [H3 H4].
  split; intros; [apply H1, H3|apply H2, H4]; assumption.
Qed.

(** X10. Edges come from [add_edge] alone, and nodes from [add_node],
    [get_node_error] and [set_node_error] alone: two nodes joined after
    any other call were joined before it, and a node live after any other
    call was live before it. *)
Theorem creation_sources c g :
  ((forall x y, c <> AddEdge x y) ->
   forall a b, has_edge a b (exec c g) = true -> has_edge a b g = true) /\
  (c <> AddNode -> (forall y, c <> GetNodeError y) ->
   (forall y v, c <> SetNodeError y v) ->
   forall x, live x (exec c g) -> live x g).
Proof.
  split.
  - intros Hc a b.
    destruct c; simpl; try (intros H; exact H).
    + unfold add_node.
      destruct (add_node_loop_state (S (length (_nodes g))) 0 g) as [->|[r [_ ->]]];
        auto.
    + exfalso. now apply (Hc node1 node2).
    + apply remove_node_shrinks.
    + unfold remove_edge. destruct (find_edge node1 node2 (_edges g)); [|auto].
      apply has_edge_subseq, erase_at_subseq.
    + unfold has_edge at 1. simpl. rewrite erase_if_skip.
      apply has_edge_subseq, skip_erase_subseq.
    + rewrite purge_orphans_state. apply remove_all_shrinks.
    + unfold get_edge_age. destruct (find _ _); auto.
    + unfold set_edge_age. destruct (find_edge node1 node2 (_edges g)); [|auto].
      unfold has_edge. simpl.
      rewrite (existsb_connects_ends a b _ (_edges g)); [auto|].
      now apply ends_update_at.
    + unfold has_edge. simpl.
      rewrite (existsb_connects_ends a b _ (_edges g)); [auto|].
      now apply ends_map.
    + unfold find_wpu. destruct (fold_left _ _ _). auto.
  - intros H1 H2 H3 x. unfold live.
    destruct c; simpl; try (intros H; exact H).
    + contradiction.
    + unfold add_edge. destruct (node1 =? node2); [auto|].
      destruct (negb _ || negb _); [auto|].
      destruct (existsb _ _); auto.
    + apply remove_node_shrinks.
    + unfold remove_edge. destruct (find_edge node1 node2 (_edges g)); auto.
    + rewrite purge_orphans_state. apply remove_all_shrinks.
    + unfold get_edge_age. destruct (find _ _); auto.
    + unfold set_edge_age. destruct (find_edge node1 node2 (_edges g)); auto.
    + exfalso. now apply (H2 node).
    + exfalso. now apply (H3 node err).
    + rewrite (nodes_mem_keys x _ (_nodes g)); [auto|].
      rewrite map_map. reflexivity.
    + unfold find_wpu. destruct (fold_left _ _ _). auto.
Qed.

Lemma creation_sources_witness :
  (forall a b,
     has_edge a b (exec (RemoveNode 1) (snd (run build_path empty_graph))) = true ->
     has_edge a b (snd (run build_path empty_graph)) = true) /\
  (forall x,
     live x (exec (RemoveNode 1) (snd (run build_path empty_graph))) ->
     live x (snd (run build_path empty_graph))).
Proof.
  destruct (creation_sources (RemoveNode 1) (snd (run build_path empty_graph)))
    as [H1 H2].
  split.
  - apply H1. discriminate.
  - apply H2; discriminate.
Defined.

(** ** Node errors: write, then read *)

Lemma nodes_get_set k n m :
  nodes_mem k m = true -> nodes_get k (nodes_set k n m) = n.
Proof.
  induction m as [|[k' n'] m IH]; simpl; [discriminate|].
  destruct (k' =? k) eqn:E; simpl; rewrite E; [reflexivity|]. exact IH.
Qed.

Lemma nodes_get_set_other k y n m :
  y <> k -> nodes_get y (nodes_set k n m) = nodes_get y m.
Proof.
  intros Hne. induction m as [|[k' n'] m IH]; simpl; [reflexivity|].
  destruct (Z.eqb_spec k' k) as [->|Hk]; simpl.
  - destruct (Z.eqb_spec k y); [congruence|reflexivity].
  - destruct (k' =? y); [reflexivity|exact IH].
Qed.

Lemma nodes_get_last_other k y n m :
  y <> k -> nodes_get y (m ++ [(k, n)]) = nodes_get y m.
Proof.
  intros Hne. induction m as [|[k' n'] m IH]; simpl.
  - destruct (Z.eqb_spec k y); [congruence|reflexivity].
  - destruct (k' =? y); [reflexivity|exact IH].
Qed.

Lemma nodes_get_index_other k y m :
  y <> k -> nodes_get y (nodes_index k m) = nodes_get y m.
Proof.
  intros Hne. unfold nodes_index, nodes_emplace.
  destruct (nodes_mem k m); [reflexivity|now apply nodes_get_last_other].
Qed.

Lemma nodes_mem_index_other k y m :
  y <> k -> nodes_mem y (nodes_index k m) = nodes_mem y m.
Proof.
  intros Hne. unfold nodes_index, nodes_emplace.
  destruct (nodes_mem k m); [reflexivity|].
  rewrite nodes_mem_app. simpl.
  destruct (Z.eqb_spec k y); [congruence|]. now rewrite !orb_false_r.
Qed.

Lemma nodes_index_present k m : nodes_mem k m = true -> nodes_index k m = m.
Proof. intros H. unfold nodes_index, nodes_emplace. now rewrite H. Qed.

(** X11. For every id, live or not, [set_node_error(id, v)] returns, and
    [get_node_error(id)] then returns [v] and changes nothing more.  The
    write leaves the edges, the other nodes and their errors as they
    were. *)
Theorem node_error_round_trip id v g :
  exists g1,
    set_node_error id v g = (Ret tt, g1) /\
    get_node_error id g1 = (Ret v, g1) /\
    live id g1 /\
    _edges g1 = _edges g /\
    (forall y, y <> id ->
       (live y g1 <-> live y g) /\ error_of y g1 = error_of y g).
Proof.
  eexists. split; [reflexivity|].
  assert (Hm : nodes_mem id (nodes_set id {| error := v |} (nodes_index id (_nodes g)))
               = true).
  { rewrite (nodes_mem_keys id _ (nodes_index id (_nodes g)))
      by apply keys_nodes_set.
    apply nodes_mem_emplace. }
  split; [|split; [exact Hm|split; [reflexivity|]]].
  - unfold get_node_error. simpl. rewrite (nodes_index_present _ _ Hm).
    rewrite nodes_get_set by apply nodes_mem_emplace. simpl.
    unfold set_nodes. reflexivity.
  - intros y Hy. unfold live, error_of. simpl.
    rewrite (nodes_mem_keys y _ (nodes_index id (_nodes g)))
      by apply keys_nodes_set.
    rewrite nodes_mem_index_other, nodes_get_set_other, nodes_get_index_other
      by assumption.
    split; [tauto|reflexivity].
Qed.

(** The graph with one more node, for an id that was not live: the id
    is live with the error given, the map holds the old pairs and the new
    one (in whatever order), and the edges, the other ids and their
    errors are as before. *)
Lemma upsert_frame g id n ns :
  nodes_mem id (_nodes g) = false ->
  ns = _nodes g ++ [(id, n)] ->
  live id (set_nodes ns g) /\
  error_of id (set_nodes ns g) = error n /\
  Permutation (_nodes (set_nodes ns g)) ((id, n) :: _nodes g) /\
  nodes_size (set_nodes ns g) = nodes_size g + 1 /\
  _edges (set_nodes ns g) = _edges g /\
  (forall y, y <> id ->
     (live y (set_nodes ns g) <-> live y g) /\
     error_of y (set_nodes ns g) = error_of y g).
Proof.
  intros H ->. unfold live, error_of, nodes_size. simpl.
  split; [rewrite nodes_mem_app; simpl; rewrite Z.eqb_refl; apply orb_true_r|].
  split; [now rewrite nodes_get_last|].
  split; [apply Permutation_sym, Permutation_cons_append|].
  split; [rewrite length_app; simpl; lia|].
  split; [reflexivity|].
  intros y Hy. rewrite nodes_mem_app, nodes_get_last_other by assumption.
  simpl. destruct (Z.eqb_spec id y); [congruence|].
  rewrite !orb_false_r. split; [tauto|reflexivity].
Qed.

(** C5, amended: for an id that is not live, [get_node_error(id)] returns
    0 and [set_node_error(id, v)] returns normally.  Each adds one node
    for the id to the map, with error 0 for the getter and [v] for the
    setter: afterwards the id is live with this error, the map holds the
    pairs it held and the new one, and the edges, the other ids and their
    errors are as they were.  Where the iterator finds the new node is
    left open. *)
Theorem node_error_accessors_upsert g id v :
  ~ live id g ->
  exists g1 g2,
    get_node_error id g = (Ret Float32.zero, g1) /\
    set_node_error id v g = (Ret tt, g2) /\
    (live id g1 /\
     error_of id g1 = Float32.zero /\
     Permutation (_nodes g1) ((id, default_Node) :: _nodes g) /\
     nodes_size g1 = nodes_size g + 1 /\
     _edges g1 = _edges g /\
     (forall y, y <> id ->
        (live y g1 <-> live y g) /\ error_of y g1 = error_of y g)) /\
    (live id g2 /\
     error_of id g2 = v /\
     Permutation (_nodes g2) ((id, {| error := v |}) :: _nodes g) /\
     nodes_size g2 = nodes_size g + 1 /\
     _edges g2 = _edges g /\
     (forall y, y <> id ->
        (live y g2 <-> live y g) /\ error_of y g2 = error_of y g)).
Proof.
  unfold live. intros H. apply not_true_iff_false in H.
  exists (set_nodes (_nodes g ++ [(id, default_Node)]) g),
         (set_nodes (_nodes g ++ [(id, {| error := v |})]) g).
  split; [|split; [|split]].
  - unfold get_node_error, nodes_index, nodes_emplace.
    now rewrite H, nodes_get_last.
  - unfold set_node_error, nodes_index, nodes_emplace.
    now rewrite H, nodes_set_last.
  - exact (upsert_frame g id default_Node _ H eq_refl).
  - exact (upsert_frame g id {| error := v |} _ H eq_refl).
Qed.

Lemma node_error_accessors_upsert_witness :
  exists g1 g2,
    get_node_error 5 (snd (run build_path empty_graph)) = (Ret Float32.zero, g1) /\
    set_node_error 5 (Float32.of_Z 3) (snd (run build_path empty_graph))
    = (Ret tt, g2) /\
    live 5 g1 /\ error_of 5 g1 = Float32.zero /\ nodes_size g1 = 4 /\
    live 5 g2 /\ error_of 5 g2 = Float32.of_Z 3 /\ nodes_size g2 = 4 /\
    has_edge 0 1 g2 = true /\ error_of 1 g2 = Float32.zero.
Proof.
  destruct (node_error_accessors_upsert (snd (run build_path empty_graph)) 5
              (Float32.of_Z 3))
    as [g1 [g2 [H1 [H2 [[A1 [A2 [_ [A4 _]]]] [B1 [B2 [_ [B4 [B5 B6]]]]]]]]]].
  - vm_compute. discriminate.
  - exists g1, g2. repeat split; try assumption.
    + unfold has_edge. rewrite B5. reflexivity.
    + destruct (B6 1) as [_ E]; [discriminate|]. rewrite E. reflexivity.
Defined.

(** ** Edge ages: write, then read *)

Lemma find_edge_split a b : forall l i,
  find_edge a b l = Some i ->
  exists pre e suf,
    l = pre ++ e :: suf /\ length pre = i /\
    connects a b e = true /\ existsb (connects a b) pre = false.
Proof.
  induction l as [|x l IH]; simpl; intros i H; [discriminate|].
  destruct (connects a b x) eqn:E.
  - injection H as <-. exists [], x, l. repeat split; assumption.
  - destruct (find_edge a b l) as [j|] eqn:F; [|discriminate].
    injection H as <-. destruct (IH j eq_refl) as [pre [e [suf [-> [<- [He Hpre]]]]]].
    exists (x :: pre), e, suf. repeat split; simpl; [assumption|now rewrite E].
Qed.

Lemma find_edge_Some a b l :
  existsb (connects a b) l = true -> exists i, find_edge a b l = Some i.
Proof.
  intros H. destruct (find_edge a b l) as [i|] eqn:F; [now exists i|].
  apply find_edge_None in F. congruence.
Qed.

Lemma update_at_app {A} (f : A -> A) pre e suf :
  update_at f (length pre) (pre ++ e :: suf) = pre ++ f e :: suf.
Proof. induction pre as [|x pre IH]; simpl; [reflexivity|now rewrite IH]. Qed.

Lemma find_app_none {A} (q : A -> bool) pre l :
  existsb q pre = false -> find q (pre ++ l) = find q l.
Proof.
  induction pre as [|x pre IH]; simpl; [reflexivity|].
  intros H. apply orb_false_iff in H as [Hx Hpre]. rewrite Hx. now apply IH.
Qed.

Lemma find_app_some {A} (q : A -> bool) pre l :
  existsb q pre = true -> find q (pre ++ l) = find q pre.
Proof.
  induction pre as [|x pre IH]; simpl; [discriminate|].
  destruct (q x); [reflexivity|exact IH].
Qed.

(** Two unordered pairs of ids are the same pair. *)
Lemma connects_same_pair a b c d e :
  connects a b e = true -> connects c d e = true ->
  (c = a /\ d = b) \/ (c = b /\ d = a).
Proof.
  unfold connects. intros H1 H2.
  apply orb_true_iff in H1 as [H1|H1]; apply andb_true_iff in H1 as [Ha Hb];
    apply orb_true_iff in H2 as [H2|H2]; apply andb_true_iff in H2 as [Hc Hd];
    apply Z.eqb_eq in Ha, Hb, Hc, Hd; [left|right|right|left]; split; congruence.
Qed.

(** X12. When an edge joins [a] and [b], [set_edge_age(a, b, v)] returns
    and [get_edge_age] then returns [v] for the endpoints in either
    order.  The write keeps the nodes and the endpoints of every edge,
    and the age of the edge between any other two nodes. *)
Theorem edge_age_round_trip a b v g :
  has_edge a b g = true ->
  exists g1,
    set_edge_age a b v g = (Ret tt, g1) /\
    get_edge_age a b g1 = (Ret v, g1) /\
    get_edge_age b a g1 = (Ret v, g1) /\
    _nodes g1 = _nodes g /\
    map ends (_edges g1) = map ends (_edges g) /\
    (forall c d, ~ (c = a /\ d = b) -> ~ (c = b /\ d = a) ->
       age_of c d g1 = age_of c d g).
Proof.
  unfold has_edge. intros H.
  destruct (find_edge_Some a b _ H) as [i Hi].
  destruct (find_edge_split a b _ i Hi) as [pre [e [suf [Hl [Hlen [He Hpre]]]]]].
  unfold set_edge_age. rewrite Hi. eexists. split; [reflexivity|].
  assert (Hupd : update_at (with_age v) i (_edges g) = pre ++ with_age v e :: suf)
    by (rewrite Hl, <- Hlen; apply update_at_app).
  assert (He' : connects a b (with_age v e) = true) by exact He.
  split; [|split; [|split; [reflexivity|split]]].
  - unfold get_edge_age. simpl. rewrite Hupd.
    rewrite find_app_none by assumption. simpl. rewrite He'. reflexivity.
  - unfold get_edge_age. simpl. rewrite Hupd.
    rewrite find_app_none by (now rewrite <- existsb_connects_sym).
    simpl. rewrite <- connects_sym, He'. reflexivity.
  - simpl. now apply ends_update_at.
  - intros c d H1 H2. unfold age_of. simpl. rewrite Hupd, Hl.
    assert (Hcd : connects c d e = false).
    { destruct (connects c d e) eqn:E; [|reflexivity].
      destruct (connects_same_pair a b c d e He E); tauto. }
    destruct (existsb (connects c d) pre) eqn:Ep.
    + now rewrite !find_app_some.
    + rewrite !find_app_none by assumption. simpl.
      change (connects c d (with_age v e)) with (connects c d e).
      now rewrite Hcd.
Qed.

Lemma edge_age_round_trip_witness :
  exists g1,
    set_edge_age 2 1 Float32.one (snd (run build_path empty_graph)) = (Ret tt, g1) /\
    get_edge_age 2 1 g1 = (Ret Float32.one, g1) /\
    get_edge_age 1 2 g1 = (Ret Float32.one, g1) /\
    age_of 0 1 g1 = Some Float32.zero.
Proof.
  destruct (edge_age_round_trip 2 1 Float32.one (snd (run build_path empty_graph)))
    as [g1 [H1 [H2 [H3 [_ [_ H6]]]]]]; [reflexivity|].
  exists g1. repeat split; try assumption.
  rewrite H6; [reflexivity| |]; intros [? ?]; discriminate.
Defined.

(** ** Adding and removing an edge *)

Lemma find_edge_app_new a b l :
  existsb (connects a b) l = false ->
  find_edge a b (l ++ [new_Edge a b]) = Some (length l).
Proof.
  induction l as [|e l IH]; simpl; intros H.
  - now rewrite connects_new_Edge.
  - apply orb_false_iff in H as [He Hl]. rewrite He, IH by assumption. reflexivity.
Qed.

Lemma set_edges_same g : set_edges (_edges g) g = g.
Proof. now destruct g. Qed.

(** X13. For live distinct nodes that no edge joins yet, [add_edge(a, b)]
    followed by [remove_edge], with the endpoints in either order, gives
    back the state before the two calls. *)
Theorem add_then_remove_edge a b g :
  live a g -> live b g -> a <> b -> has_edge a b g = false ->
  run (add_edge a b ;; remove_edge a b) g = (Ret tt, g) /\
  run (add_edge a b ;; remove_edge b a) g = (Ret tt, g).
Proof.
  unfold live, has_edge. intros Ha Hb Hne Hno.
  assert (Hadd : add_edge a b g
                 = (Ret tt, set_edges (_edges g ++ [new_Edge a b]) g)).
  { unfold add_edge. apply Z.eqb_neq in Hne. now rewrite Hne, Ha, Hb, Hno. }
  assert (Hrem : forall x y,
             find_edge x y (_edges g ++ [new_Edge a b]) = Some (length (_edges g)) ->
             remove_edge x y (set_edges (_edges g ++ [new_Edge a b]) g)
             = (Ret tt, g)).
  { intros x y Hf. unfold remove_edge. simpl. rewrite Hf.
    rewrite erase_at_app. simpl. rewrite app_nil_r.
    unfold set_edges. simpl. now destruct g. }
  unfold run, bind. rewrite Hadd. split.
  - apply Hrem. now apply find_edge_app_new.
  - apply Hrem.
    assert (Hno' : existsb (connects b a) (_edges g) = false)
      by now rewrite existsb_connects_sym.
    clear - Hno'. induction (_edges g) as [|e l IH]; simpl.
    + rewrite connects_sym, connects_new_Edge. reflexivity.
    + simpl in Hno'. apply orb_false_iff in Hno' as [He Hl].
      rewrite He, IH by assumption. reflexivity.
Qed.

Lemma add_then_remove_edge_witness :
  run (add_edge 0 2 ;; remove_edge 0 2) (snd (run build_path empty_graph))
  = (Ret tt, snd (run build_path empty_graph)) /\
  run (add_edge 0 2 ;; remove_edge 2 0) (snd (run build_path empty_graph))
  = (Ret tt, snd (run build_path empty_graph)).
Proof.
  apply (add_then_remove_edge 0 2 (snd (run build_path empty_graph)));
    try reflexivity. discriminate.
Defined.

(** ** Neighbours *)

Lemma neighbours_of_In x y es :
  In y (neighbours_of x es) <-> existsb (connects x y) es = true.
Proof.
  induction es as [|e es IH]; simpl; [split; [contradiction|discriminate]|].
  rewrite !in_app_iff, IH, orb_true_iff. unfold connects.
  destruct (Z.eqb_spec (n1 e) x) as [H1|H1], (Z.eqb_spec (n2 e) x) as [H2|H2];
    simpl;
    destruct (Z.eqb_spec (n2 e) y) as [H3|H3], (Z.eqb_spec (n1 e) y) as [H4|H4];
    simpl; intuition congruence.
Qed.

Lemma neighbours_of_NoDup x es :
  simple_edges es = true -> NoDup (neighbours_of x es).
Proof.
  induction es as [|e es IH]; simpl; intros H; [constructor|].
  apply andb_true_iff in H as [H Hs]. apply andb_true_iff in H as [Hloop Hnew].
  apply negb_true_iff in Hloop, Hnew. apply Z.eqb_neq in Hloop.
  specialize (IH Hs).
  assert (Hfresh : forall y, connects x y e = true ->
                             ~ In y (neighbours_of x es)).
  { intros y Hy Hin. apply neighbours_of_In in Hin.
    assert (X : existsb (connects (n1 e) (n2 e)) es = true).
    { apply existsb_exists in Hin as [e' [Hin He']].
      apply existsb_exists. exists e'. split; [assumption|].
      assert (Hee : connects (n1 e) (n2 e) e = true)
        by (unfold connects; now rewrite !Z.eqb_refl).
      destruct (connects_same_pair _ _ _ _ e Hee Hy) as [[-> ->]|[-> ->]];
        [assumption|now rewrite connects_sym]. }
    congruence. }
  destruct (Z.eqb_spec (n1 e) x) as [H1|H1], (Z.eqb_spec (n2 e) x) as [H2|H2];
    simpl; try assumption; try congruence.
  - constructor; [|assumption]. apply Hfresh. unfold connects.
    rewrite H1, !Z.eqb_refl. reflexivity.
  - constructor; [|assumption]. apply Hfresh. unfold connects.
    rewrite H2, !Z.eqb_refl. simpl. apply orb_true_r.
Qed.

(** X14. [get_neighbours(x)] returns, leaves the graph as it was, and
    lists exactly the nodes an edge joins to [x]: [y] is listed for [x]
    exactly when [x] is listed for [y].  When the edges are simple no
    node is listed twice, and when every edge joins two distinct live
    nodes the nodes listed are live and differ from [x], and the list of
    an id that is not live is empty. *)
Theorem get_neighbours_spec x g :
  exists l,
    get_neighbours x g = (Ret l, g) /\
    (forall y, In y l <-> has_edge x y g = true) /\
    (forall y, In y l <-> In x (neighbours_of y (_edges g))) /\
    (simple_edges (_edges g) = true -> NoDup l) /\
    (edges_ok g = true ->
     (forall y, In y l -> live y g /\ y <> x) /\ (~ live x g -> l = [])).
Proof.
  exists (neighbours_of x (_edges g)). split; [reflexivity|].
  split; [intros y; apply neighbours_of_In|].
  split; [intros y; rewrite !neighbours_of_In; now rewrite existsb_connects_sym|].
  split; [apply neighbours_of_NoDup|].
  intros Hok. unfold edges_ok in Hok. rewrite forallb_forall in Hok.
  assert (Hlive : forall y, In y (neighbours_of x (_edges g)) ->
                            live x g /\ live y g /\ y <> x).
  { intros y Hin. apply neighbours_of_In, existsb_exists in Hin as [e [Hin He]].
    specialize (Hok e Hin). unfold edge_ok in Hok.
    apply andb_true_iff in Hok as [Hok H2]. apply andb_true_iff in Hok as [H0 H1].
    apply negb_true_iff, Z.eqb_neq in H0. unfold live, connects in *.
    apply orb_true_iff in He as [He|He]; apply andb_true_iff in He as [Ha Hb];
      apply Z.eqb_eq in Ha, Hb; subst; repeat split; auto. }
  split.
  - intros y Hin. destruct (Hlive y Hin) as [_ H]. exact H.
  - intros Hx. destruct (neighbours_of x (_edges g)) as [|y l] eqn:E;
      [reflexivity|].
    exfalso. apply Hx. apply (Hlive y). now left.
Qed.

(** ** Removing an edge *)

Lemma connects_ends_sym e e' :
  connects (n1 e) (n2 e) e' = connects (n1 e') (n2 e') e.
Proof.
  unfold connects.
  destruct (Z.eqb_spec (n1 e') (n1 e)), (Z.eqb_spec (n2 e') (n2 e)),
           (Z.eqb_spec (n1 e') (n2 e)), (Z.eqb_spec (n2 e') (n1 e));
    destruct (Z.eqb_spec (n1 e) (n1 e')), (Z.eqb_spec (n2 e) (n2 e')),
             (Z.eqb_spec (n1 e) (n2 e')), (Z.eqb_spec (n2 e) (n1 e'));
    simpl; try reflexivity; congruence.
Qed.

(** In a simple edge vector no other edge joins the endpoints of an
    edge. *)
Lemma simple_edges_unique pre e suf :
  simple_edges (pre ++ e :: suf) = true ->
  existsb (connects (n1 e) (n2 e)) (pre ++ suf) = false.
Proof.
  induction pre as [|x pre IH]; simpl; intros H.
  - apply andb_true_iff in H as [H _]. apply andb_true_iff in H as [_ H].
    now apply negb_true_iff in H.
  - apply andb_true_iff in H as [H Hs]. apply andb_true_iff in H as [_ H].
    apply negb_true_iff in H. rewrite existsb_app in H. simpl in H.
    apply orb_false_iff in H as [_ H]. apply orb_false_iff in H as [H _].
    rewrite connects_ends_sym, H. simpl. now apply IH.
Qed.

(** X15. When an edge joins [a] and [b], [remove_edge(a, b)] returns,
    keeps the nodes and erases one edge, the first one between [a] and
    [b]; the other edges stay, in their order.  When the edges are simple,
    [a] and [b] are no longer joined afterwards and every other two nodes
    are joined exactly when they were. *)
Theorem remove_edge_effect a b g :
  has_edge a b g = true ->
  exists g1,
    remove_edge a b g = (Ret tt, g1) /\
    _nodes g1 = _nodes g /\
    S (length (_edges g1)) = length (_edges g) /\
    subseq (_edges g1) (_edges g) /\
    (simple_edges (_edges g) = true ->
     has_edge a b g1 = false /\ has_edge b a g1 = false /\
     (forall c d, ~ (c = a /\ d = b) -> ~ (c = b /\ d = a) ->
        has_edge c d g1 = has_edge c d g /\ age_of c d g1 = age_of c d g)).
Proof.
  unfold has_edge. intros H.
  destruct (find_edge_Some a b _ H) as [i Hi].
  destruct (find_edge_split a b _ i Hi) as [pre [e [suf [Hl [Hlen [He Hpre]]]]]].
  unfold remove_edge. rewrite Hi. eexists. split; [reflexivity|].
  cbn [_edges _nodes set_edges].
  assert (Her : erase_at i (_edges g) = pre ++ suf)
    by (rewrite Hl, <- Hlen; apply erase_at_app).
  split; [reflexivity|]. split; [|split; [apply erase_at_subseq|]].
  - rewrite Her, Hl, !length_app. simpl. lia.
  - intros Hs. rewrite Her. rewrite Hl in Hs.
    pose proof (simple_edges_unique pre e suf Hs) as Hu.
    assert (Hab : existsb (connects a b) (pre ++ suf) = false).
    { apply not_true_iff_false. intros X.
      apply existsb_exists in X as [e' [Hin He']].
      assert (Y : existsb (connects (n1 e) (n2 e)) (pre ++ suf) = true).
      { apply existsb_exists. exists e'. split; [assumption|].
        assert (Hee : connects (n1 e) (n2 e) e = true)
          by (unfold connects; now rewrite !Z.eqb_refl).
        destruct (connects_same_pair a b _ _ e He Hee) as [[-> ->]|[-> ->]];
          [assumption|now rewrite connects_sym]. }
      congruence. }
    split; [exact Hab|]. split; [now rewrite existsb_connects_sym|].
    intros c d H1 H2.
    assert (Hcd : connects c d e = false).
    { destruct (connects c d e) eqn:E; [|reflexivity].
      destruct (connects_same_pair a b c d e He E); tauto. }
    unfold age_of. cbn [_edges _nodes set_edges]. rewrite Hl. split.
    + rewrite !existsb_app. simpl. now rewrite Hcd.
    + destruct (existsb (connects c d) pre) eqn:Ep.
      * now rewrite !find_app_some.
      * rewrite !find_app_none by assumption. simpl. now rewrite Hcd.
Qed.

Lemma remove_edge_effect_witness :
  exists g1,
    remove_edge 1 0 (snd (run build_path empty_graph)) = (Ret tt, g1) /\
    has_edge 0 1 g1 = false /\
    has_edge 1 2 g1 = true.
Proof.
  destruct (remove_edge_effect 1 0 (snd (run build_path empty_graph)))
    as [g1 [H1 [_ [_ [_ H5]]]]]; [reflexivity|].
  destruct H5 as [_ [H6 H7]]; [reflexivity|].
  exists g1. split; [exact H1|]. split; [exact H6|].
  destruct (H7 1 2) as [H8 _]; [intros [? ?]; discriminate..|].
  rewrite H8. reflexivity.
Defined.

(** ** Adding an edge *)

(** X16. For live distinct nodes [add_edge(a, b)] returns and keeps the
    nodes.  When an edge joins [a] and [b] already the edge vector is
    unchanged; otherwise it is the old vector with the one edge (a, b),
    of age 0, at its end.  So [a] and [b] are joined afterwards, in
    either order, and every edge there was keeps its place and its
    age. *)
Theorem add_edge_effect a b g :
  live a g -> live b g -> a <> b ->
  exists g1,
    add_edge a b g = (Ret tt, g1) /\
    _nodes g1 = _nodes g /\
    has_edge a b g1 = true /\ has_edge b a g1 = true /\
    _edges g1
    = (if has_edge a b g then _edges g else _edges g ++ [new_Edge a b]) /\
    (forall c d, has_edge c d g = true -> age_of c d g1 = age_of c d g) /\
    (has_edge a b g = false ->
     age_of a b g1 = Some Float32.zero /\ age_of b a g1 = Some Float32.zero).
Proof.
  unfold live, has_edge. intros Ha Hb Hne. unfold add_edge.
  apply Z.eqb_neq in Hne. rewrite Hne, Ha, Hb. simpl.
  destruct (existsb (connects a b) (_edges g)) eqn:E.
  - exists g. split; [reflexivity|]. split; [reflexivity|].
    split; [exact E|]. split; [now rewrite existsb_connects_sym|].
    split; [reflexivity|].
    split; [reflexivity|discriminate].
  - eexists. split; [reflexivity|]. simpl. split; [reflexivity|].
    assert (Hex : existsb (connects a b) (_edges g ++ [new_Edge a b]) = true).
    { rewrite existsb_app. simpl. rewrite connects_new_Edge. apply orb_true_r. }
    split; [exact Hex|]. split; [now rewrite existsb_connects_sym|].
    split; [reflexivity|]. split.
    + intros c d Hcd. unfold age_of. simpl. now rewrite find_app_some.
    + intros _. unfold age_of. simpl. split.
      * rewrite find_app_none by assumption. simpl.
        now rewrite connects_new_Edge.
      * rewrite find_app_none by (now rewrite existsb_connects_sym). simpl.
        now rewrite connects_sym, connects_new_Edge.
Qed.

Lemma add_edge_effect_witness :
  exists g1,
    add_edge 2 0 (snd (run build_path empty_graph)) = (Ret tt, g1) /\
    _edges g1 = [new_Edge 0 1; new_Edge 1 2; new_Edge 2 0] /\
    has_edge 0 2 g1 = true /\
    age_of 0 2 g1 = Some Float32.zero.
Proof.
  destruct (add_edge_effect 2 0 (snd (run build_path empty_graph)))
    as [g1 [H1 [_ [_ [H4 [H5 [_ H7]]]]]]]; try reflexivity; [discriminate|].
  exists g1. split; [exact H1|]. split; [rewrite H5; reflexivity|].
  split; [exact H4|]. now apply H7.
Defined.

(** ** Adding nodes *)

(** X17. With fewer than 2^32 nodes [add_node] returns an id that was not
    live and adds one node of this id, with error 0, to the map: the map
    then holds the pairs it held and the new one (where the iterator
    finds the new node is left open); the edges, the other nodes and
    their errors are as before, and the node count that is reported goes
    up by one. *)
Theorem add_node_effect g :
  nodes_size g < UINT_MOD ->
  exists i g1,
    add_node g = (Ret i, g1) /\
    ~ live i g /\
    live i g1 /\
    Permutation (_nodes g1) ((i, default_Node) :: _nodes g) /\
    _edges g1 = _edges g /\
    get_node_error i g1 = (Ret Float32.zero, g1) /\
    (forall y, live y g -> live y g1 /\ error_of y g1 = error_of y g) /\
    (nodes_size g + 1 < UINT_MOD ->
     exists c, get_node_count g = (Ret c, g) /\
               get_node_count g1 = (Ret (c + 1), g1)).
Proof.
  intros Hn. destruct (add_node_returns g Hn) as [i [Hadd [Hrange [Hfree _]]]].
  unfold nodes_emplace in Hadd. rewrite Hfree in Hadd.
  exists i. eexists. split; [exact Hadd|].
  split; [unfold live; rewrite Hfree; discriminate|].
  assert (Hm : nodes_mem i (_nodes g ++ [(i, default_Node)]) = true).
  { rewrite nodes_mem_app. simpl. rewrite Z.eqb_refl. apply orb_true_r. }
  split; [exact Hm|].
  split; [apply Permutation_sym, Permutation_cons_append|].
  split; [reflexivity|].
  split; [|split].
  - unfold get_node_error. simpl. rewrite (nodes_index_present _ _ Hm).
    now rewrite nodes_get_last.
  - unfold live, error_of. simpl. intros y Hy.
    rewrite nodes_mem_app, Hy. split; [reflexivity|].
    rewrite nodes_get_last_other; [reflexivity|]. intros ->. congruence.
  - intros Hn1. exists (nodes_size g).
    assert (Hpos : 0 <= nodes_size g) by (unfold nodes_size; lia).
    unfold get_node_count. rewrite to_unsigned_small by lia.
    split; [reflexivity|].
    assert (Hs : nodes_size (set_nodes (_nodes g ++ [(i, default_Node)]) g)
                 = nodes_size g + 1).
    { unfold nodes_size. simpl. rewrite length_app. simpl. lia. }
    rewrite Hs, to_unsigned_small by lia. reflexivity.
Qed.

Lemma add_node_effect_witness :
  exists i g1,
    add_node (snd (run build_path empty_graph)) = (Ret i, g1) /\
    ~ live i (snd (run build_path empty_graph)) /\
    live i g1 /\
    get_node_error i g1 = (Ret Float32.zero, g1) /\
    get_node_count g1 = (Ret 4, g1).
Proof.
  destruct (add_node_effect (snd (run build_path empty_graph)))
    as [i [g1 [H1 [H2 [H3 [_ [_ [H5 [_ H7]]]]]]]]]; [reflexivity|].
  destruct H7 as [c [Hc Hc1]]; [reflexivity|].
  assert (Ec : c = 3) by (vm_compute in Hc; now injection Hc).
  subst c. exists i, g1. repeat split; assumption.
Defined.

(** The map that holds the ids below [j], in order, with default nodes. *)
Lemma nodes_mem_first x j :
  nodes_mem x (map (fun i => (Z.of_nat i, default_Node)) (seq 0 j)) = true <->
  0 <= x < Z.of_nat j.
Proof.
  rewrite nodes_mem_In, map_map. simpl. rewrite in_map_iff. split.
  - intros [i [<- Hi]]. apply in_seq in Hi. lia.
  - intros H. exists (Z.to_nat x). split; [lia|]. apply in_seq. lia.
Qed.

Lemma add_node_first j es :
  Z.of_nat j < UINT_MOD ->
  add_node {| _nodes := map (fun i => (Z.of_nat i, default_Node)) (seq 0 j);
              _edges := es |}
  = (Ret (Z.of_nat j),
     {| _nodes := map (fun i => (Z.of_nat i, default_Node)) (seq 0 (S j));
        _edges := es |}).
Proof.
  intros Hj.
  set (g := {| _nodes := map (fun i => (Z.of_nat i, default_Node)) (seq 0 j);
               _edges := es |}).
  assert (Hn : nodes_size g < UINT_MOD).
  { unfold nodes_size, g. simpl. now rewrite length_map, length_seq. }
  destruct (add_node_returns g Hn) as [i [Hadd [Hrange [Hfree Hsmall]]]].
  assert (Hi : i = Z.of_nat j).
  { assert (H1 : ~ (0 <= i < Z.of_nat j)).
    { intros H. apply nodes_mem_first in H. unfold g in Hfree. simpl in Hfree.
      congruence. }
    destruct (Z_lt_le_dec (Z.of_nat j) i) as [Hlt|Hle]; [|lia].
    exfalso. assert (H2 : nodes_mem (Z.of_nat j) (_nodes g) = true)
      by (apply Hsmall; lia).
    unfold g in H2. simpl in H2. apply nodes_mem_first in H2. lia. }
  subst i. rewrite Hadd. unfold nodes_emplace. rewrite Hfree.
  unfold set_nodes, g. cbn [_nodes _edges]. rewrite seq_S, map_app. reflexivity.
Qed.

Lemma add_nodes_first k : forall j es,
  Z.of_nat (j + k) <= UINT_MOD ->
  add_nodes k {| _nodes := map (fun i => (Z.of_nat i, default_Node)) (seq 0 j);
                 _edges := es |}
  = (Ret (map Z.of_nat (seq j k)),
     {| _nodes := map (fun i => (Z.of_nat i, default_Node)) (seq 0 (j + k));
        _edges := es |}).
Proof.
  induction k as [|k IH]; intros j es Hb.
  - simpl. unfold ret. now rewrite Nat.add_0_r.
  - cbn [add_nodes]. unfold bind. rewrite add_node_first by lia.
    rewrite IH by lia. unfold ret. cbn [seq map].
    replace (S j + k)%nat with (j + S k)%nat by lia. reflexivity.
Qed.

(** X18. From the empty graph, [k] calls of [add_node] return the ids
    0, 1, ..., [k] - 1 in this order, for every [k] up to 2^32.  The
    graph they leave has no edge and its map holds exactly these ids,
    each once and with error 0; the order in which the iterator finds
    them is left open. *)
Theorem add_nodes_from_empty k :
  Z.of_nat k <= UINT_MOD ->
  exists g1,
    run (add_nodes k) empty_graph = (Ret (map Z.of_nat (seq 0 k)), g1) /\
    Permutation (_nodes g1)
                (map (fun i => (Z.of_nat i, default_Node)) (seq 0 k)) /\
    _edges g1 = [] /\
    nodes_size g1 = Z.of_nat k /\
    (forall x, live x g1 <-> 0 <= x < Z.of_nat k) /\
    (forall x, live x g1 -> error_of x g1 = Float32.zero).
Proof.
  intros Hk. eexists. split; [apply (add_nodes_first k 0%nat []); exact Hk|].
  cbn [_nodes _edges Nat.add].
  split; [apply Permutation_refl|]. split; [reflexivity|].
  split; [unfold nodes_size; cbn [_nodes]; now rewrite length_map, length_seq|].
  split.
  - intros x. unfold live. cbn [_nodes]. apply nodes_mem_first.
  - intros x _. unfold error_of. cbn [_nodes].
    induction (seq 0 k) as [|i l IH]; simpl; [reflexivity|].
    destruct (Z.of_nat i =? x); [reflexivity|exact IH].
Qed.

Lemma add_nodes_from_empty_witness :
  exists g1,
    run (add_nodes 4) empty_graph = (Ret [0; 1; 2; 3], g1) /\
    _edges g1 = [] /\
    nodes_size g1 = 4 /\
    (forall x, live x g1 <-> 0 <= x < 4).
Proof.
  destruct (add_nodes_from_empty 4) as [g1 [H1 [_ [H3 [H4 [H5 _]]]]]].
  - vm_compute. discriminate.
  - exists g1. repeat split; try assumption; apply H5; assumption.
Defined.

(** ** Winner selection, in general *)

Lemma to_unsigned_to_int k : 0 <= k < UINT_MOD -> to_unsigned (to_int k) = k.
Proof.
  intros Hk. unfold to_int, to_unsigned, UINT_MOD in *.
  destruct (k <? 2 ^ 31) eqn:E.
  - apply Z.mod_small. lia.
  - apply Z.ltb_ge in E.
    replace (k - 2 ^ 32) with (k + (-1) * 2 ^ 32) by lia.
    rewrite Z.mod_add by discriminate. apply Z.mod_small. lia.
Qed.

Lemma to_int_not_minus_one k : 0 <= k < UINT_MOD - 1 -> to_int k <> -1.
Proof.
  intros Hk. unfold to_int, UINT_MOD in *.
  destruct (k <? 2 ^ 31) eqn:E; lia.
Qed.

(** Facts on the order of floats, for the comparisons that [find_wpu]
    makes. *)

(** Nothing is both not below zero and below a float that is not above
    zero. *)
Lemma nonneg_not_below e m :
  Float32.gtb m Float32.zero = false ->
  nonneg e && Float32.ltb e m = false.
Proof.
  float_cases.
  destruct e as [[]|[]| |[] ? ?], m as [[]|[]| |[] ? ?]; simpl;
    try reflexivity; try discriminate.
Qed.

Lemma nonneg_leb_refl e : nonneg e = true -> Float32.leb e e = true.
Proof.
  float_cases.
  destruct e as [[]|[]| |[] m x]; simpl; try reflexivity; try discriminate.
  intros _. rewrite Z.compare_refl.
  change (Pos.compare_cont Eq m m) with (Pos.compare m m).
  now rewrite Pos.compare_refl.
Qed.

Lemma nonneg_total x y :
  nonneg x = true -> nonneg y = true ->
  Float32.ltb x y = false -> Float32.leb y x = true.
Proof.
  float_cases.
  destruct x as [[]|[]| |[] mx ex], y as [[]|[]| |[] my ey]; simpl;
    try reflexivity; try discriminate.
  intros _ _.
  rewrite (Z.compare_antisym ex ey).
  change (Pos.compare_cont Eq mx my) with (Pos.compare mx my).
  change (Pos.compare_cont Eq my mx) with (Pos.compare my mx).
  rewrite (Pos.compare_antisym mx my).
  destruct (ex ?= ey); simpl; try reflexivity; try discriminate.
  destruct (mx ?= my)%positive; simpl; try reflexivity; discriminate.
Qed.

Lemma nonneg_lt_le_trans x y z :
  nonneg x = true -> nonneg y = true -> nonneg z = true ->
  Float32.ltb x y = true -> Float32.leb y z = true -> Float32.leb x z = true.
Proof.
  float_cases.
  destruct x as [[]|[]| |[] mx ex], y as [[]|[]| |[] my ey],
           z as [[]|[]| |[] mz ez]; simpl;
    try reflexivity; try discriminate.
  intros _ _ _.
  change (Pos.compare_cont Eq mx my) with (Pos.compare mx my).
  change (Pos.compare_cont Eq my mz) with (Pos.compare my mz).
  change (Pos.compare_cont Eq mx mz) with (Pos.compare mx mz).
  destruct (Z.compare_spec ex ey), (Z.compare_spec ey ez),
           (Z.compare_spec ex ez);
    try discriminate; try reflexivity; try lia; subst;
    destruct (Pos.compare_spec mx my), (Pos.compare_spec my mz),
             (Pos.compare_spec mx mz);
    try discriminate; try reflexivity; lia.
Qed.

(** Once a node is accepted whose id is not 2^32 - 1 and whose error is
    not above zero, no later node replaces it. *)
Lemma find_wpu_locked rest : forall wpu m,
  wpu <> -1 -> Float32.gtb m Float32.zero = false ->
  fold_left find_wpu_step rest (wpu, m) = (wpu, m).
Proof.
  induction rest as [|n rest IH]; intros wpu m Hw Hm; simpl; [reflexivity|].
  fold (nonneg (error (snd n))).
  rewrite (nonneg_not_below _ m Hm).
  apply Z.eqb_neq in Hw as Hw'. rewrite Hw'. simpl. now apply IH.
Qed.

Lemma find_wpu_first_step k n :
  find_wpu_step (-1, Float32.of_Z 0) (k, n) = (to_int k, error n).
Proof. unfold find_wpu_step. simpl. now rewrite orb_true_r. Qed.

Lemma ids_below_In bound g k n :
  ids_below bound g = true -> In (k, n) (_nodes g) -> 0 <= k < bound.
Proof.
  unfold ids_below. rewrite forallb_forall. intros H Hin.
  specialize (H (k, n) Hin). simpl in H. lia.
Qed.

Lemma find_wpu_step_cases wpu m k n :
  find_wpu_step (wpu, m) (k, n) = (wpu, m) \/
  find_wpu_step (wpu, m) (k, n) = (to_int k, error n).
Proof.
  unfold find_wpu_step. simpl. destruct (_ || _); [now right|now left].
Qed.

Lemma find_wpu_fold_live (nodes : list (unsigned * Node)) : forall l wpu m,
  (forall k n, In (k, n) l -> 0 <= k < UINT_MOD /\ nodes_mem k nodes = true) ->
  nodes_mem (to_unsigned wpu) nodes = true ->
  nodes_mem (to_unsigned (fst (fold_left find_wpu_step l (wpu, m)))) nodes = true.
Proof.
  induction l as [|[k n] l IH]; intros wpu m Hl Hw; cbn [fold_left];
    [exact Hw|].
  destruct (Hl k n (or_introl eq_refl)) as [Hk Hm].
  assert (Hl' : forall k' n', In (k', n') l ->
                  0 <= k' < UINT_MOD /\ nodes_mem k' nodes = true)
    by (intros k' n' Hin; apply (Hl k' n'); now right).
  match goal with
  | |- context [fold_left _ _ ?x] => destruct x as [w' m'] eqn:E
  end.
  destruct (find_wpu_step_cases wpu m k n) as [F|F];
    pose proof (eq_trans (eq_sym E) F) as G; injection G as -> ->;
    apply IH; auto.
  now rewrite to_unsigned_to_int.
Qed.

(** X19. On a graph with at least one node, the ids being [unsigned]
    values, [find_wpu] returns the id of a live node and leaves the graph
    as it was. *)
Theorem find_wpu_live g :
  _nodes g <> [] -> ids_below UINT_MOD g = true ->
  exists w, find_wpu g = (Ret w, g) /\ live w g.
Proof.
  intros Hne Hids. unfold find_wpu, live.
  destruct (_nodes g) as [|[k n] rest] eqn:E; [contradiction|].
  assert (Hall : forall k' n', In (k', n') ((k, n) :: rest) ->
                   0 <= k' < UINT_MOD /\ nodes_mem k' ((k, n) :: rest) = true).
  { intros k' n' Hin. split.
    - apply (ids_below_In _ g k' n' Hids). now rewrite E.
    - apply nodes_mem_In, in_map_iff. now exists (k', n'). }
  exists (to_unsigned (fst (fold_left find_wpu_step rest (to_int k, error n)))).
  split.
  - cbn [fold_left]. rewrite find_wpu_first_step.
    now destruct (fold_left find_wpu_step rest (to_int k, error n)).
  - apply find_wpu_fold_live.
    + intros k' n' Hin. apply (Hall k' n'). now right.
    + rewrite to_unsigned_to_int by exact (proj1 (Hall k n (or_introl eq_refl))).
      simpl. now rewrite Z.eqb_refl.
Qed.

Lemma find_wpu_live_witness :
  exists w,
    find_wpu (snd (run build_path empty_graph))
    = (Ret w, snd (run build_path empty_graph)) /\
    live w (snd (run build_path empty_graph)).
Proof.
  apply (find_wpu_live (snd (run build_path empty_graph)));
    [discriminate|reflexivity].
Defined.

(** X20. When the first node visited has an id below 2^32 - 1 and an
    error that is not above zero (negative, zero or not a number),
    [find_wpu] returns this node, whatever the other nodes and their
    errors. *)
Theorem find_wpu_first_locks_in g k n rest :
  _nodes g = (k, n) :: rest ->
  0 <= k < UINT_MOD - 1 ->
  Float32.gtb (error n) Float32.zero = false ->
  find_wpu g = (Ret k, g).
Proof.
  intros E Hk He. unfold find_wpu. rewrite E. cbn [fold_left].
  rewrite find_wpu_first_step.
  rewrite find_wpu_locked; [|now apply to_int_not_minus_one|exact He].
  rewrite to_unsigned_to_int by lia. reflexivity.
Qed.

Lemma find_wpu_first_locks_in_witness :
  find_wpu {| _nodes := [(6, {| error := Float32.of_Z (-1) |});
                         (5, {| error := Float32.of_Z 3 |});
                         (7, {| error := Float32.of_Z 1 |})];
              _edges := [] |}
  = (Ret 6, {| _nodes := [(6, {| error := Float32.of_Z (-1) |});
                          (5, {| error := Float32.of_Z 3 |});
                          (7, {| error := Float32.of_Z 1 |})];
               _edges := [] |}).
Proof.
  apply (find_wpu_first_locks_in _ 6 {| error := Float32.of_Z (-1) |}
           [(5, {| error := Float32.of_Z 3 |}); (7, {| error := Float32.of_Z 1 |})]);
    [reflexivity|vm_compute; split; [discriminate|reflexivity]|reflexivity].
Defined.

(** The accumulator of [find_wpu] after the nodes [seen]: a node of
    [seen] whose error is not below zero and is the least of the errors
    of [seen] that are not below zero. *)
Lemma find_wpu_fold_min : forall l seen wpu m,
  (forall k n, In (k, n) l -> 0 <= k < UINT_MOD - 1) ->
  (exists k n, In (k, n) seen /\ 0 <= k < UINT_MOD - 1 /\
               wpu = to_int k /\ m = error n) ->
  nonneg m = true ->
  (forall k n, In (k, n) seen -> nonneg (error n) = true ->
               Float32.leb m (error n) = true) ->
  exists k n,
    In (k, n) (seen ++ l) /\ 0 <= k < UINT_MOD - 1 /\
    fold_left find_wpu_step l (wpu, m) = (to_int k, error n) /\
    nonneg (error n) = true /\
    (forall k' n', In (k', n') (seen ++ l) -> nonneg (error n') = true ->
                   Float32.leb (error n) (error n') = true).
Proof.
  induction l as [|[k1 x1] l IH]; intros seen wpu m Hl Hacc Hm Hmin.
  - destruct Hacc as [k [n [Hin [Hk [-> ->]]]]]. exists k, n.
    rewrite app_nil_r. repeat split; try assumption; lia.
  - destruct Hacc as [k [n [Hin [Hk [Hw Hme]]]]].
    assert (Hk1 : 0 <= k1 < UINT_MOD - 1) by (apply (Hl k1 x1); now left).
    assert (Hl' : forall k' n', In (k', n') l -> 0 <= k' < UINT_MOD - 1)
      by (intros; apply (Hl k' n'); now right).
    assert (Hwpu : (wpu =? -1) = false)
      by (apply Z.eqb_neq; subst wpu; now apply to_int_not_minus_one).
    replace (seen ++ (k1, x1) :: l) with ((seen ++ [(k1, x1)]) ++ l)
      by (rewrite <- app_assoc; reflexivity).
    cbn [fold_left]. unfold find_wpu_step at 2. cbn [fst snd]. rewrite Hwpu.
    rewrite orb_false_r. fold (nonneg (error x1)).
    destruct (nonneg (error x1)) eqn:Hx; cbn [andb].
    + destruct (Float32.ltb (error x1) m) eqn:Hlt.
      * apply IH; [exact Hl'| |exact Hx|].
        -- exists k1, x1. split; [apply in_or_app; right; now left|].
           repeat split; try reflexivity; lia.
        -- intros k' n' Hin' Hn'. apply in_app_or in Hin' as [Hin'|[[= <- <-]|[]]].
           ++ apply (nonneg_lt_le_trans (error x1) m (error n'));
                [exact Hx|exact Hm|exact Hn'|exact Hlt|now apply (Hmin k' n')].
           ++ now apply nonneg_leb_refl.
      * apply IH; [exact Hl'| |exact Hm|].
        -- exists k, n. split; [apply in_or_app; now left|]. auto.
        -- intros k' n' Hin' Hn'. apply in_app_or in Hin' as [Hin'|[[= <- <-]|[]]].
           ++ now apply (Hmin k' n').
           ++ now apply nonneg_total.
    + apply IH; [exact Hl'| |exact Hm|].
      * exists k, n. split; [apply in_or_app; now left|]. auto.
      * intros k' n' Hin' Hn'. apply in_app_or in Hin' as [Hin'|[[= <- <-]|[]]].
        -- now apply (Hmin k' n').
        -- congruence.
Qed.

(** X21. When no id is 2^32 - 1 and the error of the first node visited
    is not below zero, [find_wpu] returns a node whose error is not below
    zero and is at most the error of every node whose error is not below
    zero; nodes with a negative error or one that is not a number are
    passed over. *)
Theorem find_wpu_least_error g k1 n1 rest :
  _nodes g = (k1, n1) :: rest ->
  ids_below (UINT_MOD - 1) g = true ->
  nonneg (error n1) = true ->
  exists k n,
    In (k, n) (_nodes g) /\
    find_wpu g = (Ret k, g) /\
    nonneg (error n) = true /\
    (forall k' n', In (k', n') (_nodes g) -> nonneg (error n') = true ->
                   Float32.leb (error n) (error n') = true).
Proof.
  intros E Hids Hn1.
  assert (Hall : forall k n, In (k, n) (_nodes g) -> 0 <= k < UINT_MOD - 1)
    by (intros k n; apply ids_below_In; exact Hids).
  rewrite E in Hall.
  destruct (find_wpu_fold_min rest [(k1, n1)] (to_int k1) (error n1))
    as [k [n [Hin [Hk [Hfold [Hnn Hmin]]]]]].
  - intros k n Hin. apply (Hall k n). now right.
  - exists k1, n1. split; [now left|]. split; [apply (Hall k1 n1); now left|].
    now split.
  - exact Hn1.
  - intros k n [[= <- <-]|[]] _. now apply nonneg_leb_refl.
  - exists k, n. rewrite E. split; [exact Hin|]. split; [|split; assumption].
    unfold find_wpu. rewrite E. cbn [fold_left]. rewrite find_wpu_first_step, Hfold.
    rewrite to_unsigned_to_int by lia. reflexivity.
Qed.

Lemma find_wpu_least_error_witness :
  exists k n,
    In (k, n) winner_nodes /\
    find_wpu {| _nodes := winner_nodes; _edges := [] |}
    = (Ret k, {| _nodes := winner_nodes; _edges := [] |}) /\
    nonneg (error n) = true /\
    (forall k' n', In (k', n') winner_nodes -> nonneg (error n') = true ->
                   Float32.leb (error n) (error n') = true).
Proof.
  apply (find_wpu_least_error {| _nodes := winner_nodes; _edges := [] |}
           5 {| error := Float32.of_Z 3 |}
           [(6, {| error := Float32.of_Z (-1) |}); (7, {| error := Float32.of_Z 1 |})]);
    reflexivity.
Defined.

(** ** Resetting the errors *)

Lemma nodes_get_reset x m :
  nodes_mem x m = true ->
  error (nodes_get x (map (fun kv => (fst kv, {| error := Float32.zero |})) m))
  = Float32.zero.
Proof.
  induction m as [|[k n] m IH]; simpl; [discriminate|].
  destruct (k =? x); simpl; [reflexivity|exact IH].
Qed.

(** X22. [reset_errors] returns and keeps the ids, their order and the
    edges; afterwards [get_node_error] returns 0 for every live node and
    changes nothing, and [find_wpu] returns the first node of the map
    when its id is below 2^32 - 1. *)
Theorem reset_errors_effect g :
  exists g1,
    reset_errors g = (Ret tt, g1) /\
    map fst (_nodes g1) = map fst (_nodes g) /\
    _edges g1 = _edges g /\
    (forall x, live x g ->
       live x g1 /\ get_node_error x g1 = (Ret Float32.zero, g1)) /\
    (forall k n rest, _nodes g = (k, n) :: rest -> 0 <= k < UINT_MOD - 1 ->
       find_wpu g1 = (Ret k, g1)).
Proof.
  eexists. split; [reflexivity|]. simpl.
  split; [now rewrite map_map|]. split; [reflexivity|]. split.
  - intros x Hx. unfold live in *.
    assert (Hx1 : nodes_mem x
                    (map (fun kv => (fst kv, {| error := Float32.zero |})) (_nodes g))
                  = true).
    { rewrite (nodes_mem_keys x _ (_nodes g)); [exact Hx|]. now rewrite map_map. }
    split; [exact Hx1|]. unfold get_node_error. simpl.
    rewrite (nodes_index_present _ _ Hx1), nodes_get_reset by assumption.
    reflexivity.
  - intros k n rest E Hk. unfold find_wpu. simpl. rewrite E. cbn [map fold_left].
    cbn [fst]. rewrite find_wpu_first_step. simpl error.
    rewrite find_wpu_locked; [|now apply to_int_not_minus_one|reflexivity].
    rewrite to_unsigned_to_int; [reflexivity|].
    clear - Hk. unfold UINT_MOD in *. lia.
Qed.

(** ** Purging twice *)

Lemma orphans_of_nil g :
  (forall x, live x g -> existsb (incident x) (_edges g) = true) ->
  orphans_of g = [].
Proof.
  intros H. destruct (orphans_of g) as [|o l] eqn:E; [reflexivity|].
  assert (Ho : In o (orphans_of g)) by (rewrite E; now left).
  apply orphans_of_In in Ho as [Hl Hno]. rewrite (H o Hl) in Hno. discriminate.
Qed.

(** X23. On a map that holds every key once, a second [purge_orphans]
    right after the first finds nothing to remove: it returns the empty
    list and leaves the graph as it is. *)
Theorem purge_orphans_twice g :
  nodes_wf g ->
  exists l g1,
    purge_orphans g = (Ret l, g1) /\
    purge_orphans g1 = (Ret [], g1).
Proof.
  unfold nodes_wf, keys. intros Hwf.
  assert (Hnd : NoDup (orphans_of g)) by now apply NoDup_keys_filter.
  assert (Hall : forall o, In o (orphans_of g) ->
            nodes_mem o (_nodes g) = true /\ existsb (incident o) (_edges g) = false)
    by (intros o Ho; now apply orphans_of_In).
  set (g1 := set_nodes
               (filter (fun kv => negb (existsb (Z.eqb (fst kv)) (orphans_of g)))
                  (_nodes g)) g).
  assert (H1 : purge_orphans g = (Ret (orphans_of g), g1)).
  { unfold purge_orphans, bind. now rewrite remove_all_orphans. }
  exists (orphans_of g), g1. split; [exact H1|].
  assert (Hnil : orphans_of g1 = []).
  { apply orphans_of_nil. intros x Hx. unfold live in Hx. simpl in *.
    apply nodes_mem_In, in_map_iff in Hx as [kv [<- Hin]].
    apply filter_In in Hin as [Hin Hno]. apply negb_true_iff in Hno.
    destruct (existsb (incident (fst kv)) (_edges g)) eqn:E; [reflexivity|].
    exfalso.
    assert (Ho : In (fst kv) (orphans_of g)).
    { apply orphans_of_In. split; [|assumption].
      apply nodes_mem_In, in_map_iff. now exists kv. }
    assert (X : existsb (Z.eqb (fst kv)) (orphans_of g) = true).
    { apply existsb_exists. exists (fst kv). split; [assumption|apply Z.eqb_refl]. }
    exact (eq_true_false_abs _ X Hno). }
  unfold purge_orphans. rewrite Hnil. reflexivity.
Qed.

Lemma purge_orphans_twice_witness :
  exists l g1,
    purge_orphans (snd (run (build_path ;; remove_edge 1 2) empty_graph))
    = (Ret l, g1) /\
    purge_orphans g1 = (Ret [], g1).
Proof.
  apply (purge_orphans_twice (snd (run (build_path ;; remove_edge 1 2) empty_graph))).
  vm_compute. repeat constructor; simpl; intuition discriminate.
Defined.

(** ** Ticks *)

Lemma find_map_with_age (q : Edge -> bool) (f : float -> float) l :
  (forall e a, q (with_age a e) = q e) ->
  find q (map (fun e => with_age (f (age e)) e) l)
  = option_map (fun e => with_age (f (age e)) e) (find q l).
Proof.
  intros Hq. induction l as [|e l IH]; simpl; [reflexivity|].
  rewrite Hq. destruct (q e); [reflexivity|exact IH].
Qed.

(** X4. [k] calls of [increment_age] return and keep the nodes, the
    number of edges, their order and their endpoints; [get_edge_age] then
    reports, for every two nodes, the age it reported before with 1 added
    [k] times, and fails as before where no edge joins them. *)
Theorem ticks_effect k g :
  exists g1,
    ticks k g = (Ret tt, g1) /\
    _nodes g1 = _nodes g /\
    map ends (_edges g1) = map ends (_edges g) /\
    (forall a b, has_edge a b g1 = has_edge a b g) /\
    (forall a b,
       age_of a b g1
       = option_map (Nat.iter k (fun x => Float32.add x Float32.one))
                    (age_of a b g)) /\
    (forall a b,
       fst (get_edge_age a b g1)
       = match fst (get_edge_age a b g) with
         | Ret v => Ret (Nat.iter k (fun x => Float32.add x Float32.one) v)
         | r => r
         end).
Proof.
  assert (Hage : forall a b g0,
             fst (get_edge_age a b g0)
             = match age_of a b g0 with
               | Some v => Ret v
               | None => Throw (runtime_error "edge not found")
               end).
  { intros a b g0. unfold get_edge_age, age_of.
    destruct (find (connects a b) (_edges g0)); reflexivity. }
  assert (Hmain : exists g1,
             ticks k g = (Ret tt, g1) /\
             _nodes g1 = _nodes g /\
             map ends (_edges g1) = map ends (_edges g) /\
             (forall a b,
                age_of a b g1
                = option_map (Nat.iter k (fun x => Float32.add x Float32.one))
                    (age_of a b g))).
  { revert g. induction k as [|k IH]; intros g.
    - exists g. split; [reflexivity|]. split; [reflexivity|].
      split; [reflexivity|]. intros a b. simpl. now destruct (age_of a b g).
    - cbn [ticks]. unfold bind. unfold increment_age at 1.
      destruct (IH (set_edges
                      (map (fun e => with_age (Float32.add (age e) Float32.one) e)
                         (_edges g)) g)) as [g1 [H1 [H2 [H3 H4]]]].
      exists g1. split; [exact H1|]. split; [exact H2|]. split.
      + rewrite H3. simpl. now apply ends_map.
      + intros a b. rewrite H4. unfold age_of. simpl.
        rewrite (find_map_with_age (connects a b)
                   (fun x => Float32.add x Float32.one)) by reflexivity.
        destruct (find (connects a b) (_edges g)) as [e|]; simpl; [|reflexivity].
        f_equal.
        exact (eq_sym (Nat.iter_succ_r k _ (fun x => Float32.add x Float32.one)
                         (age e))). }
  destruct Hmain as [g1 [H1 [H2 [H3 H4]]]].
  exists g1. split; [exact H1|]. split; [exact H2|]. split; [exact H3|].
  split; [|split; [exact H4|]].
  - intros a b. unfold has_edge. now apply existsb_connects_ends.
  - intros a b. rewrite !Hage, H4. now destruct (age_of a b g).
Qed.

(** ** Purging old edges again and again *)

Section SkipEraseCount.

Variable p : Edge -> bool.

(** The loop keeps the elements that do not pass the test, in order. *)
Lemma skip_erase_keeps_rest l :
  filter (fun e => negb (p e)) (skip_erase p l) = filter (fun e => negb (p e)) l.
Proof.
  induction l as [|x|x y l IH1 IH2] using list_ind2.
  - reflexivity.
  - simpl. destruct (p x) eqn:Hx; simpl; rewrite ?Hx; reflexivity.
  - change (skip_erase p (x :: y :: l))
      with (if p x then y :: skip_erase p l else x :: skip_erase p (y :: l)).
    destruct (p x) eqn:Hx.
    + cbn [filter]. rewrite Hx. cbn [negb]. rewrite IH1. reflexivity.
    + cbn [filter] in *. rewrite Hx. cbn [negb]. now rewrite IH2.
Qed.

Lemma skip_erase_count_le l :
  (length (filter p (skip_erase p l)) <= length (filter p l))%nat.
Proof.
  induction l as [|x|x y l IH1 IH2] using list_ind2.
  - apply Nat.le_refl.
  - simpl. destruct (p x) eqn:Hx; simpl; rewrite ?Hx; simpl; lia.
  - change (skip_erase p (x :: y :: l))
      with (if p x then y :: skip_erase p l else x :: skip_erase p (y :: l)).
    destruct (p x) eqn:Hx.
    + cbn [filter]. rewrite Hx. destruct (p y); simpl; lia.
    + cbn [filter] in *. rewrite Hx. exact IH2.
Qed.

(** A pass of the loop over a vector that holds an element passing the
    test erases at least one. *)
Lemma skip_erase_count_lt l :
  existsb p l = true ->
  (length (filter p (skip_erase p l)) < length (filter p l))%nat.
Proof.
  induction l as [|x|x y l IH1 IH2] using list_ind2.
  - discriminate.
  - simpl. destruct (p x) eqn:Hx; simpl; [lia|discriminate].
  - change (skip_erase p (x :: y :: l))
      with (if p x then y :: skip_erase p l else x :: skip_erase p (y :: l)).
    intros H. destruct (p x) eqn:Hx.
    + pose proof (skip_erase_count_le l) as Hle.
      cbn [filter]. rewrite Hx. destruct (p y); simpl; lia.
    + cbn [existsb] in H. rewrite Hx in H. cbn [orb] in H.
      cbn [filter] in *. rewrite Hx. now apply IH2.
Qed.

Lemma filter_none_all l :
  length (filter p l) = 0%nat -> filter (fun e => negb (p e)) l = l.
Proof.
  induction l as [|x l IH]; simpl; [reflexivity|].
  destruct (p x); simpl; [discriminate|]. intros H. now rewrite IH.
Qed.

Lemma filter_none_count l :
  existsb p l = false -> length (filter p l) = 0%nat.
Proof.
  induction l as [|x l IH]; simpl; [reflexivity|].
  intros H. apply orb_false_iff in H as [Hx Hl]. rewrite Hx. now apply IH.
Qed.

End SkipEraseCount.

(** X24. Repeating [purge_old_edges] makes up for the edges a single call
    steps over: each call on a graph that holds an edge older than
    [max_age] erases at least one such edge, and after as many calls as
    there are such edges (or more) exactly the edges that are not older
    are left, in their order. *)
Theorem purges_remove_all_old max_age : forall k g,
  (old_count max_age g <= k)%nat ->
  exists g1,
    purges k max_age g = (Ret tt, g1) /\
    _nodes g1 = _nodes g /\
    _edges g1
    = filter (fun e => negb (Float32.gtb (age e) max_age)) (_edges g) /\
    old_count max_age g1 = 0%nat /\
    (old_count max_age g <> 0%nat ->
     (old_count max_age (snd (purge_old_edges max_age g))
      < old_count max_age g)%nat).
Proof.
  assert (Hlt : forall g, old_count max_age g <> 0%nat ->
            (old_count max_age (snd (purge_old_edges max_age g))
             < old_count max_age g)%nat).
  { intros g Hg. unfold old_count in *. simpl. rewrite erase_if_skip.
    apply skip_erase_count_lt.
    destruct (existsb (fun e => Float32.gtb (age e) max_age) (_edges g)) eqn:E;
      [reflexivity|].
    exfalso. apply Hg. now apply filter_none_count. }
  induction k as [|k IH]; intros g Hk.
  - exists g. split; [reflexivity|]. split; [reflexivity|].
    assert (H0 : old_count max_age g = 0%nat) by lia.
    split; [|split; [exact H0|apply Hlt]].
    symmetry. now apply filter_none_all.
  - cbn [purges]. unfold bind.
    change (purge_old_edges max_age g)
      with (Ret tt, snd (purge_old_edges max_age g)).
    destruct (IH (snd (purge_old_edges max_age g))) as [g1 [H1 [H2 [H3 [H4 _]]]]].
    + destruct (Nat.eq_dec (old_count max_age g) 0) as [H0|H0].
      * unfold old_count in *. simpl. rewrite erase_if_skip.
        pose proof (skip_erase_count_le
                      (fun e => Float32.gtb (age e) max_age) (_edges g)). lia.
      * specialize (Hlt g H0). lia.
    + exists g1. split; [exact H1|]. split; [exact H2|].
      split; [|split; [exact H4|apply Hlt]].
      rewrite H3. simpl. rewrite erase_if_skip. apply skip_erase_keeps_rest.
Qed.

Lemma purges_remove_all_old_witness :
  exists g1,
    purges 2 (Float32.of_Z 2) (snd (run (build_path ;; tick3) empty_graph))
    = (Ret tt, g1) /\
    _edges g1 = [].
Proof.
  destruct (purges_remove_all_old (Float32.of_Z 2) 2
              (snd (run (build_path ;; tick3) empty_graph)))
    as [g1 [H1 [_ [H3 _]]]].
  - vm_compute. apply le_n.
  - exists g1. split; [exact H1|]. rewrite H3. reflexivity.
Defined.

(** ** Edges have no direction *)

Lemma find_edge_sym a b l : find_edge a b l = find_edge b a l.
Proof.
  induction l as [|e l IH]; simpl; [reflexivity|].
  now rewrite (connects_sym a b e), IH.
Qed.

Lemma find_connects_sym a b l : find (connects a b) l = find (connects b a) l.
Proof.
  induction l as [|e l IH]; simpl; [reflexivity|].
  now rewrite (connects_sym a b e), IH.
Qed.

(** X25. The order of the two endpoints does not matter to a call on an
    edge: [remove_edge], [get_edge_age] and [set_edge_age] do the same
    for (a, b) and for (b, a), and [add_edge] returns or throws alike,
    leaves the same nodes and joins the same pairs of nodes. *)
Theorem edge_calls_symmetric a b v g :
  remove_edge a b g = remove_edge b a g /\
  get_edge_age a b g = get_edge_age b a g /\
  set_edge_age a b v g = set_edge_age b a v g /\
  fst (add_edge a b g) = fst (add_edge b a g) /\
  _nodes (snd (add_edge a b g)) = _nodes (snd (add_edge b a g)) /\
  (forall c d, has_edge c d (snd (add_edge a b g))
               = has_edge c d (snd (add_edge b a g))) /\
  (forall c d, has_edge c d g = has_edge d c g).
Proof.
  split; [unfold remove_edge; now rewrite find_edge_sym|].
  split; [unfold get_edge_age; now rewrite find_connects_sym|].
  split; [unfold set_edge_age; now rewrite find_edge_sym|].
  assert (Hsym : forall c d, has_edge c d g = has_edge d c g)
    by (intros c d; apply existsb_connects_sym).
  unfold add_edge. rewrite (Z.eqb_sym b a).
  rewrite (orb_comm (negb (nodes_mem b (_nodes g)))).
  rewrite (existsb_connects_sym b a).
  destruct (a =? b); [repeat split; auto|].
  destruct (negb _ || negb _); [repeat split; auto|].
  destruct (existsb (connects a b) (_edges g)); [repeat split; auto|].
  repeat split; auto.
  intros c d. unfold has_edge. simpl. rewrite !existsb_app. simpl.
  f_equal. f_equal. unfold connects. simpl.
  destruct (a =? c), (b =? d), (a =? d), (b =? c); reflexivity.
Qed.
